(** * packetlens sidecar: body codec and proxy lifecycle

    A shallow embedding of [sidecar/proxy_service.py]: the pure body
    functions ([_truncate_bytes], [_safe_decode], [_get_header_value],
    [_looks_binary_from_text], [_decode_for_display]), the body fields of
    the record built by [FlowCollector.response], and the [ProxyService]
    lifecycle ([start], [stop], [pause], [resume], the engine thread's exit
    path of [run_proxy], [current_status_payload]).

    Conventions.
    - A Python [bytes] value is a [list Z] of octets; a Python [str] is a
      [list Z] of Unicode code points.
    - A call that may raise returns a [result]; [try ... except Exception]
      is [catch].
    - Library calls whose behaviour is not fixed by the source
      ([str.lower], [gzip.decompress], [zlib.decompress], the optional
      [brotli] module) are the fields of the [Runtime] class.
    - The environment of the lifecycle (socket probes, thread liveness,
      join outcomes) is passed to the operations as explicit oracles. *)

From Stdlib Require Import ZArith List Bool Lia String Ascii.
From Stdlib Require Import DecimalString PrimFloat Uint63.
Import ListNotations.

Local Open Scope Z_scope.

(** ** Python values *)

Definition bytes := list Z.
Definition pystr := list Z.

(** [len(x)] *)
Definition len {A : Type} (l : list A) : Z := Z.of_nat (List.length l).

(** A string literal of the source, as code points. *)
Definition lit (s : string) : pystr :=
  map (fun a => Z.of_N (N_of_ascii a)) (list_ascii_of_string s).

(** [str(n)] / the f-string conversion of an [int]. *)
Definition str_of_int (z : Z) : pystr :=
  lit (NilZero.string_of_int (Z.to_int z)).

Fixpoint str_eqb (a b : pystr) : bool :=
  match a, b with
  | [], [] => true
  | x :: a', y :: b' => (x =? y) && str_eqb a' b'
  | _, _ => false
  end.

Fixpoint startswith (p s : pystr) : bool :=
  match p, s with
  | [], _ => true
  | x :: p', y :: s' => (x =? y) && startswith p' s'
  | _ :: _, [] => false
  end.

(** [p in s] on strings: [p] occurs as a contiguous run of [s]. *)
Fixpoint str_in (p s : pystr) : bool :=
  startswith p s ||
  match s with
  | [] => false
  | _ :: s' => str_in p s'
  end.

(** [x or y] on strings: the first operand unless it is empty. *)
Definition str_or (x y : pystr) : pystr :=
  match x with [] => y | _ :: _ => x end.

(** ** Exceptions *)

(** The classes raised by the calls modelled here; all of them derive
    from [Exception]. *)
Inductive exn : Type :=
| UnicodeDecodeError
| BadGzipFile
| EOFError
| ZlibError
| BrotliError
| ImportError
| AttributeError.

Inductive result (A : Type) : Type :=
| Ok (a : A)
| Raise (e : exn).

Arguments Ok {A} a.
Arguments Raise {A} e.

Definition bind {A B : Type} (m : result A) (k : A -> result B) : result B :=
  match m with
  | Ok a => k a
  | Raise e => Raise e
  end.

(** [try: m  except Exception: h] *)
Definition catch {A : Type} (m : result A) (h : result A) : result A :=
  match m with
  | Ok a => Ok a
  | Raise _ => h
  end.

Declare Scope py_scope.
Delimit Scope py_scope with py.
Notation "x <- m ;; k" := (bind m (fun x => k))
  (at level 61, m at next level, right associativity) : py_scope.

(** ** The library calls the source relies on *)

Class Runtime : Type := {
  (** [str.lower] *)
  str_lower : pystr -> pystr;
  (** [gzip.decompress] *)
  gzip_decompress : bytes -> result bytes;
  (** [zlib.decompress] *)
  zlib_decompress : bytes -> result bytes;
  (** [brotli.decompress]; [None] when [import brotli] fails. *)
  brotli_decompress : option (bytes -> result bytes)
}.

(** ** Module constants *)

Definition MAX_BODY_CAPTURE : Z := 100 * 1024.

Definition TEXTUAL_CONTENT_HINTS : list pystr :=
  [ lit "text/";
    lit "application/json";
    lit "application/xml";
    lit "application/javascript";
    lit "application/x-www-form-urlencoded";
    lit "application/graphql";
    lit "application/x-ndjson" ].

Definition BINARY_CONTENT_HINTS : list pystr :=
  [ lit "application/octet-stream";
    lit "application/x-protobuf";
    lit "application/protobuf";
    lit "application/grpc";
    lit "application/pdf";
    lit "application/zip";
    lit "image/";
    lit "audio/";
    lit "video/";
    lit "font/" ].

(** ** [_truncate_bytes] *)

(** [data[:limit]], with Python's reading of a negative bound. *)
Definition slice_to {A : Type} (data : list A) (limit : Z) : list A :=
  if limit <? 0
  then firstn (Z.to_nat (len data + limit)) data
  else firstn (Z.to_nat limit) data.

(** [limit] defaults to [MAX_BODY_CAPTURE]; every call site of the source
    relies on the default, written out here. *)
Definition _truncate_bytes (data : option bytes) (limit : Z) : bytes :=
  match data with
  | None => []
  | Some d => if len d <=? limit then d else slice_to d limit
  end.

(** ** UTF-8, as [bytes.decode("utf-8", ...)] and [str.encode("utf-8")]

    The decoder is the automaton of the Unicode standard's table of
    well-formed byte sequences: a lead byte fixes how many continuation
    bytes follow and the range of the first of them.  With
    [errors="replace"] every maximal ill-formed prefix becomes one U+FFFD
    and decoding resumes at the offending byte. *)

Definition REPLACEMENT : Z := 0xFFFD.

Inductive utf8_state : Type :=
| Start
| Pending (need : nat) (acc lo hi : Z).

Inductive lead_class : Type :=
| LeadScalar (c : Z)
| LeadPending (st : utf8_state)
| LeadBad.

Definition utf8_lead (b : Z) : lead_class :=
  if (0 <=? b) && (b <=? 0x7F) then LeadScalar b
  else if (0xC2 <=? b) && (b <=? 0xDF) then LeadPending (Pending 1 (b - 0xC0) 0x80 0xBF)
  else if b =? 0xE0 then LeadPending (Pending 2 0 0xA0 0xBF)
  else if b =? 0xED then LeadPending (Pending 2 0xD 0x80 0x9F)
  else if (0xE1 <=? b) && (b <=? 0xEF) then LeadPending (Pending 2 (b - 0xE0) 0x80 0xBF)
  else if b =? 0xF0 then LeadPending (Pending 3 0 0x90 0xBF)
  else if (0xF1 <=? b) && (b <=? 0xF3) then LeadPending (Pending 3 (b - 0xF0) 0x80 0xBF)
  else if b =? 0xF4 then LeadPending (Pending 3 4 0x80 0x8F)
  else LeadBad.

(** One continuation byte in state [Pending need acc lo hi]. *)
Definition utf8_cont (need : nat) (acc lo hi b : Z) : option lead_class :=
  if (lo <=? b) && (b <=? hi)
  then Some (match need with
             | S (S n) => LeadPending (Pending (S n) (acc * 64 + (b - 0x80)) 0x80 0xBF)
             | _ => LeadScalar (acc * 64 + (b - 0x80))
             end)
  else None.

(** [data.decode("utf-8")] *)
Fixpoint utf8_strict_from (st : utf8_state) (data : bytes) : result pystr :=
  match data with
  | [] => match st with Start => Ok [] | Pending _ _ _ _ => Raise UnicodeDecodeError end
  | b :: rest =>
      let cls := match st with
                 | Start => Some (utf8_lead b)
                 | Pending need acc lo hi => utf8_cont need acc lo hi b
                 end in
      match cls with
      | Some (LeadScalar c) => bind (utf8_strict_from Start rest) (fun t => Ok (c :: t))
      | Some (LeadPending st') => utf8_strict_from st' rest
      | Some LeadBad | None => Raise UnicodeDecodeError
      end
  end.

Definition utf8_decode (data : bytes) : result pystr := utf8_strict_from Start data.

(** [data.decode("utf-8", errors="replace")] *)
Fixpoint utf8_replace_from (st : utf8_state) (data : bytes) : pystr :=
  match data with
  | [] => match st with Start => [] | Pending _ _ _ _ => [REPLACEMENT] end
  | b :: rest =>
      let resume (cls : lead_class) : pystr :=
        match cls with
        | LeadScalar c => c :: utf8_replace_from Start rest
        | LeadPending st' => utf8_replace_from st' rest
        | LeadBad => REPLACEMENT :: utf8_replace_from Start rest
        end in
      match st with
      | Start => resume (utf8_lead b)
      | Pending need acc lo hi =>
          match utf8_cont need acc lo hi b with
          | Some cls => resume cls
          | None => REPLACEMENT :: resume (utf8_lead b)
          end
      end
  end.

Definition utf8_decode_replace (data : bytes) : pystr := utf8_replace_from Start data.

(** A code point that UTF-8 can encode: a Unicode scalar value. *)
Definition scalar (c : Z) : bool :=
  (0 <=? c) && (c <? 0x110000) && negb ((0xD800 <=? c) && (c <=? 0xDFFF)).

Definition utf8_encode_char (c : Z) : bytes :=
  if c <? 0x80 then [c]
  else if c <? 0x800 then [0xC0 + c / 64; 0x80 + c mod 64]
  else if c <? 0x10000 then [0xE0 + c / 4096; 0x80 + (c / 64) mod 64; 0x80 + c mod 64]
  else [0xF0 + c / 262144; 0x80 + (c / 4096) mod 64; 0x80 + (c / 64) mod 64; 0x80 + c mod 64].

(** [text.encode("utf-8")], for a text of scalar values. *)
Definition utf8_encode (text : pystr) : bytes := flat_map utf8_encode_char text.

(** ** [_safe_decode] *)

Definition _safe_decode (data : bytes) : pystr * bool :=
  match data with
  | [] => ([], false)
  | _ :: _ =>
      match utf8_decode data with
      | Ok text => (text, false)
      | Raise _ => (utf8_decode_replace data, true)
      end
  end.

(** ** [_get_header_value] *)

(** A header collection: [None] is Python's [None]; otherwise the pairs
    that [headers.items(multi=True)] (or [headers.items()]) yields, in
    order, duplicates kept. *)
Definition Headers := option (list (pystr * pystr)).

Fixpoint first_match `{Runtime} (target : pystr) (items : list (pystr * pystr)) : pystr :=
  match items with
  | [] => []
  | (k, v) :: rest =>
      if str_eqb (str_lower k) target then v else first_match target rest
  end.

Definition _get_header_value `{Runtime} (headers : Headers) (name : pystr) : pystr :=
  match headers with
  | None => []
  | Some [] => []
  | Some items => first_match (str_lower name) items
  end.

(** ** [_looks_binary_from_text] *)

(** [ord(c) < 32 and c not in ("\n", "\r", "\t")] *)
Definition is_control (c : Z) : bool :=
  (c <? 32) && negb ((c =? 10) || (c =? 13) || (c =? 9)).

Definition is_replacement (c : Z) : bool := c =? REPLACEMENT.

Definition count_if (p : Z -> bool) (s : pystr) : Z := len (filter p s).

(** The conversion of a small non-negative [int] to [float]. *)
Definition float_of_int (z : Z) : float := PrimFloat.of_uint63 (Uint63.of_Z z).

(** The [float] that the literal [0.08] denotes: the binary64 value
    nearest to 8/100. *)
Definition threshold : float := 0x1.47ae147ae147bp-4%float.

(** [a / b > 0.08], with Python's true division of two [int]s. *)
Definition ratio_exceeds (a b : Z) : bool :=
  PrimFloat.ltb threshold (PrimFloat.div (float_of_int a) (float_of_int b)).

Definition _looks_binary_from_text (text : pystr) : bool :=
  match text with
  | [] => false
  | _ :: _ =>
      let sample := slice_to text 2000 in
      let control_count := count_if is_control sample in
      let replacement_count := count_if is_replacement sample in
      ratio_exceeds (control_count + replacement_count) (Z.max 1 (len sample))
  end.

(** ** [_decode_for_display] *)

(** [any(hint in s for hint in hints)] *)
Definition any_hint_in (hints : list pystr) (s : pystr) : bool :=
  existsb (fun hint => str_in hint s) hints.

(** The block that undoes the transport encoding (the outer and the inner
    [try]); its value is [decoded_bytes]. *)
Definition undo_content_encoding `{Runtime}
    (data : bytes) (content_encoding : pystr) : result bytes :=
  catch
    (if str_in (lit "gzip") content_encoding then gzip_decompress data
     else if str_in (lit "deflate") content_encoding then zlib_decompress data
     else if str_in (lit "br") content_encoding then
       catch (match brotli_decompress with
              | None => Raise ImportError
              | Some decompress => decompress data
              end)
             (Ok data)
     else Ok data)
    (Ok data).

(** [f"[binary body omitted: {kind}; {n} bytes]"] *)
Definition placeholder (kind : pystr) (n : Z) : pystr :=
  lit "[binary body omitted: " ++ kind ++ lit "; " ++ str_of_int n ++ lit " bytes]".

Definition _decode_for_display `{Runtime} (data : bytes) (headers : Headers)
    : result pystr :=
  match data with
  | [] => Ok []
  | _ :: _ =>
      let content_type := str_lower (_get_header_value headers (lit "content-type")) in
      let content_encoding := str_lower (_get_header_value headers (lit "content-encoding")) in
      let lowered_ct := str_lower content_type in
      let is_likely_binary := any_hint_in BINARY_CONTENT_HINTS lowered_ct in
      bind (undo_content_encoding data content_encoding) (fun decoded_bytes =>
      let '(text, had_decode_issue) := _safe_decode decoded_bytes in
      let is_textual := any_hint_in TEXTUAL_CONTENT_HINTS lowered_ct in
      if (is_likely_binary && negb is_textual)
         || (had_decode_issue && negb is_textual)
         || _looks_binary_from_text text
      then
        let kind := str_or content_type (lit "binary/unknown") in
        Ok (placeholder kind (len data))
      else Ok text)
  end.

(** ** [CaptureState] *)

Record CaptureState : Type := {
  capture_enabled : bool;
  paused : bool
}.

Definition should_capture (st : CaptureState) : bool :=
  capture_enabled st && negb (paused st).

(** ** [FlowCollector] *)

(** A flow as the callbacks read it, reduced to what the body fields of
    a record are computed from: [req_content] and [resp_content] are the
    values that the [content] properties return.  The property reads
    themselves (mitmproxy's [content] raises [ValueError] when the
    transfer encoding cannot be undone), [_headers_to_list], [_iso_time]
    and the timestamp arithmetic are not modelled: the callbacks below
    describe the flows on which these succeed, and of the record only the
    status, body, size, truncation and error fields. *)
Record Request : Type := {
  req_content : option bytes;
  req_headers : Headers
}.

Record Response : Type := {
  resp_status_code : Z;
  resp_content : option bytes;
  resp_headers : Headers
}.

Record HTTPFlow : Type := {
  flow_request : Request;
  flow_response : option Response;
  flow_error : option pystr
}.

Record FlowRecord : Type := {
  status_code : Z;
  request_body_size : Z;
  response_body_size : Z;
  request_body : pystr;
  response_body : pystr;
  request_body_truncated : bool;
  response_body_truncated : bool;
  error : pystr
}.

(** The events put on the queue. *)
Inductive event : Type :=
| StatusEvent (status message : pystr) (port : option Z)
| ErrorEvent (message : pystr)
| FlowEvent (record : FlowRecord).

(** [content or b""] *)
Definition content_or_empty (content : option bytes) : bytes :=
  match content with
  | Some (b :: rest) => b :: rest
  | _ => []
  end.

(** [FlowCollector.error]: the queue after the call, on a flow whose
    property reads and time stamping succeed. *)
Definition FlowCollector_error `{Runtime}
    (state : CaptureState) (out_queue : list event) (flow : HTTPFlow)
    : result (list event) :=
  if negb (should_capture state) then Ok out_queue
  else
    let req := flow_request flow in
    let error_msg := match flow_error flow with Some m => m | None => [] end in
    let body := content_or_empty (req_content req) in
    bind (_decode_for_display (_truncate_bytes (Some body) MAX_BODY_CAPTURE)
                              (req_headers req)) (fun shown =>
    Ok (out_queue ++
        [FlowEvent {| status_code := 0;
                      request_body_size := len body;
                      response_body_size := 0;
                      request_body := shown;
                      response_body := [];
                      request_body_truncated := MAX_BODY_CAPTURE <? len body;
                      response_body_truncated := false;
                      error := error_msg |}])).

(** [FlowCollector.response]: the queue after the call, on a flow whose
    property reads and time stamping succeed.  [resp] is dereferenced
    ([resp.timestamp_end], then [resp.content]) before any content is read
    and before the record is built, so a flow without a response raises
    [AttributeError] whatever else it holds. *)
Definition FlowCollector_response `{Runtime}
    (state : CaptureState) (out_queue : list event) (flow : HTTPFlow)
    : result (list event) :=
  if negb (should_capture state) then Ok out_queue
  else
    let req := flow_request flow in
    match flow_response flow with
    | None => Raise AttributeError
    | Some resp =>
        let resp_body := content_or_empty (resp_content resp) in
        let req_body := content_or_empty (req_content req) in
        bind (_decode_for_display (_truncate_bytes (Some req_body) MAX_BODY_CAPTURE)
                                  (req_headers req)) (fun req_shown =>
        bind (_decode_for_display (_truncate_bytes (Some resp_body) MAX_BODY_CAPTURE)
                                  (resp_headers resp)) (fun resp_shown =>
        Ok (out_queue ++
            [FlowEvent {| status_code := resp_status_code resp;
                          request_body_size := len req_body;
                          response_body_size := len resp_body;
                          request_body := req_shown;
                          response_body := resp_shown;
                          request_body_truncated := MAX_BODY_CAPTURE <? len req_body;
                          response_body_truncated := MAX_BODY_CAPTURE <? len resp_body;
                          error := [] |}])))
    end.

(** ** [ProxyService] *)

(** The fields of a [ProxyService].  An engine thread is named by the
    number it was created under; [proxy_master] and [proxy_loop] hold the
    number of the thread that installed them. *)
Record ProxyService : Type := {
  event_queue : list event;
  state : CaptureState;
  proxy_thread : option nat;
  proxy_master : option nat;
  proxy_loop : option nat;
  current_port : option Z;
  _start_in_progress : bool;
  _last_start_error : pystr
}.

(** The service together with what the operating system knows: the engine
    threads that are alive, and how many were created so far. *)
Record World : Type := {
  svc : ProxyService;
  live : list nat;
  spawned : nat
}.

Definition ProxyService_init : World :=
  {| svc := {| event_queue := [];
               state := {| capture_enabled := true; paused := false |};
               proxy_thread := None;
               proxy_master := None;
               proxy_loop := None;
               current_port := None;
               _start_in_progress := false;
               _last_start_error := [] |};
     live := [];
     spawned := 0 |}.

Definition with_svc (f : ProxyService -> ProxyService) (w : World) : World :=
  {| svc := f (svc w); live := live w; spawned := spawned w |}.

Definition put (e : event) (s : ProxyService) : ProxyService :=
  {| event_queue := event_queue s ++ [e];
     state := state s;
     proxy_thread := proxy_thread s;
     proxy_master := proxy_master s;
     proxy_loop := proxy_loop s;
     current_port := current_port s;
     _start_in_progress := _start_in_progress s;
     _last_start_error := _last_start_error s |}.

Definition set_state (c : CaptureState) (s : ProxyService) : ProxyService :=
  {| event_queue := event_queue s;
     state := c;
     proxy_thread := proxy_thread s;
     proxy_master := proxy_master s;
     proxy_loop := proxy_loop s;
     current_port := current_port s;
     _start_in_progress := _start_in_progress s;
     _last_start_error := _last_start_error s |}.

Definition set_refs (thread master loop : option nat) (s : ProxyService) : ProxyService :=
  {| event_queue := event_queue s;
     state := state s;
     proxy_thread := thread;
     proxy_master := master;
     proxy_loop := loop;
     current_port := current_port s;
     _start_in_progress := _start_in_progress s;
     _last_start_error := _last_start_error s |}.

Definition set_current_port (p : option Z) (s : ProxyService) : ProxyService :=
  {| event_queue := event_queue s;
     state := state s;
     proxy_thread := proxy_thread s;
     proxy_master := proxy_master s;
     proxy_loop := proxy_loop s;
     current_port := p;
     _start_in_progress := _start_in_progress s;
     _last_start_error := _last_start_error s |}.

Definition set_start_in_progress (b : bool) (s : ProxyService) : ProxyService :=
  {| event_queue := event_queue s;
     state := state s;
     proxy_thread := proxy_thread s;
     proxy_master := proxy_master s;
     proxy_loop := proxy_loop s;
     current_port := current_port s;
     _start_in_progress := b;
     _last_start_error := _last_start_error s |}.

Definition set_last_start_error (m : pystr) (s : ProxyService) : ProxyService :=
  {| event_queue := event_queue s;
     state := state s;
     proxy_thread := proxy_thread s;
     proxy_master := proxy_master s;
     proxy_loop := proxy_loop s;
     current_port := current_port s;
     _start_in_progress := _start_in_progress s;
     _last_start_error := m |}.

(** [self.proxy_thread and self.proxy_thread.is_alive()] *)
Definition thread_alive (w : World) : bool :=
  match proxy_thread (svc w) with
  | Some t => existsb (Nat.eqb t) (live w)
  | None => false
  end.

(** [_running_message]: [port] is falsy when it is [None] or [0]. *)
Definition _running_message (port : option Z) : pystr :=
  match port with
  | Some p => if p =? 0 then lit "Proxy Running"
              else lit "Proxy Running on 127.0.0.1:" ++ str_of_int p
  | None => lit "Proxy Running"
  end.

Definition _status (status message : pystr) (port : option Z)
    (s : ProxyService) : ProxyService :=
  put (StatusEvent status message port) s.

Definition current_status_payload (w : World) : event :=
  let port := current_port (svc w) in
  if thread_alive w && paused (state (svc w))
  then StatusEvent (lit "paused") (lit "Paused") port
  else if thread_alive w && capture_enabled (state (svc w))
  then StatusEvent (lit "running") (_running_message port) port
  else StatusEvent (lit "stopped") (lit "Ready") port.

(** [range(lo, hi)] *)
Definition range (lo hi : Z) : list Z :=
  map (fun i => lo + Z.of_nat i) (seq 0 (Z.to_nat (hi - lo))).

Definition _candidate_ports (requested_port : Z) : list Z :=
  requested_port :: range (requested_port + 1) (requested_port + 21).

(** *** The engine thread *)

(** The [except] and [finally] clauses of [run_proxy], run by engine
    thread [t] when [master.run()] returns ([exc = None]) or raises
    ([exc = Some message]); afterwards the thread is dead.  The three
    references are cleared whichever thread they belong to. *)
Definition run_proxy_exit (t : nat) (exc : option pystr) (w : World) : World :=
  let s := svc w in
  let s1 := match exc with
            | None => s
            | Some message =>
                let s' := set_last_start_error message s in
                if negb (_start_in_progress s')
                then _status (lit "stopped") (lit "Stopped") (current_port s')
                             (put (ErrorEvent message) s')
                else s'
            end in
  {| svc := set_refs None None None s1;
     live := filter (fun u => negb (Nat.eqb u t)) (live w);
     spawned := spawned w |}.

(** [self.current_port = candidate], the creation and start of the thread
    for [candidate], and the first assignments of [run_proxy]. *)
Definition launch (candidate : Z) (w : World) : World :=
  let t := spawned w in
  {| svc := set_refs (Some t) (Some t) (Some t)
              (set_current_port (Some candidate) (svc w));
     live := t :: live w;
     spawned := S t |}.

(** How a bounded [join] on the engine thread ends: the thread left
    [run_proxy] (its exit path ran, after an exception or not), or the
    wait timed out and the thread is still running. *)
Inductive join_outcome : Type :=
| Joined (exc : option pystr)
| TimedOut.

Definition _shutdown_proxy_locked (j : join_outcome) (w : World) : World :=
  let w1 := match proxy_thread (svc w), j with
            | Some t, Joined exc => if thread_alive w then run_proxy_exit t exc w else w
            | _, _ => w
            end in
  with_svc (set_refs None None None) w1.

(** *** [start] *)

(** What the environment does with one candidate port.  A thread that
    dies before it reaches the [try] of [run_proxy] keeps the service's
    reference to it and is shut down like one that is not reachable:
    [EngineDown (Joined None)]. *)
Inductive attempt : Type :=
| PortBusy
    (** [_port_in_use] answers [True] *)
| EngineUp
    (** [_wait_for_port] answers [True] and the thread is alive *)
| EngineGone (exc : option pystr)
    (** [_wait_for_port] answers [True], but the engine thread has left
        [run_proxy] (after raising [exc], if any): [self.proxy_thread] is
        [None] and [self.proxy_thread.is_alive()] raises *)
| EngineDown (j : join_outcome)
    (** [_wait_for_port] answers [False]; [j] ends the shutdown *).

(** How the loop over the candidates ends: by [break] with [started]
    set, by running out of candidates, or by an exception. *)
Inductive search_end : Type :=
| Started
| Exhausted
| Raised (e : exn).

(** The [for candidate in self._candidate_ports(port)] loop. *)
Fixpoint search (env : Z -> attempt) (candidates : list Z) (w : World)
    : World * search_end :=
  match candidates with
  | [] => (w, Exhausted)
  | candidate :: rest =>
      match env candidate with
      | PortBusy => search env rest w
      | EngineUp =>
          (with_svc (_status (lit "running") (_running_message (Some candidate))
                             (Some candidate))
                    (launch candidate w), Started)
      | EngineGone exc =>
          (run_proxy_exit (spawned w) exc (launch candidate w),
           Raised AttributeError)
      | EngineDown j => search env rest (_shutdown_proxy_locked j (launch candidate w))
      end
  end.

Definition hint_busy : pystr := lit "Port may be busy or blocked.".

Definition failure_status (port : Z) : event :=
  StatusEvent (lit "stopped")
              (lit "Failed to start proxy near 127.0.0.1:" ++ str_of_int port)
              (Some port).

Definition failure_error (port : Z) (detail : pystr) : event :=
  ErrorEvent (lit "Proxy failed to start near 127.0.0.1:" ++ str_of_int port
              ++ lit ". " ++ detail).

(** The part of [start] from [self.state.capture_enabled.set()] on: the
    service when the call is over, and the exception it ends with, if
    any.  An exception in the loop skips the statements after it. *)
Definition start_search (port : Z) (env : Z -> attempt) (w : World)
    : World * option exn :=
  let w1 := with_svc (fun s =>
              set_last_start_error []
                (set_start_in_progress true
                   (set_state {| capture_enabled := true; paused := false |} s))) w in
  let '(w2, ended) := search env (_candidate_ports port) w1 in
  match ended with
  | Raised e => (w2, Some e)
  | Started => (with_svc (set_start_in_progress false) w2, None)
  | Exhausted =>
      (with_svc (fun s =>
         let s1 := set_current_port None s in
         let s2 := _status (lit "stopped")
                           (lit "Failed to start proxy near 127.0.0.1:" ++ str_of_int port)
                           (Some port) s1 in
         let detail := str_or (_last_start_error s2) hint_busy in
         put (ErrorEvent (lit "Proxy failed to start near 127.0.0.1:" ++ str_of_int port
                          ++ lit ". " ++ detail)) s2)
         (with_svc (set_start_in_progress false) w2), None)
  end.

Definition port_eqb (a : option Z) (b : Z) : bool :=
  match a with Some p => p =? b | None => false end.

(** [start(port)] as a whole; [join] ends the shutdown of the previous
    engine on a restart. *)
Definition start_call (port : Z) (join : join_outcome) (env : Z -> attempt)
    (w : World) : World * option exn :=
  let previous_port := current_port (svc w) in
  if thread_alive w then
    if port_eqb previous_port port then
      (with_svc (fun s =>
         _status (lit "running") (_running_message (Some port)) (Some port)
           (set_state {| capture_enabled := true; paused := false |} s)) w, None)
    else start_search port env (_shutdown_proxy_locked join w)
  else start_search port env w.

(** The service after [start(port)], whether the call returned or
    raised. *)
Definition start (port : Z) (join : join_outcome) (env : Z -> attempt)
    (w : World) : World :=
  fst (start_call port join env w).

(** The exception that [start(port)] lets through to its caller. *)
Definition start_raises (port : Z) (join : join_outcome) (env : Z -> attempt)
    (w : World) : option exn :=
  snd (start_call port join env w).

(** *** [stop], [pause], [resume] *)

Definition stop (join : join_outcome) (w : World) : World :=
  let w1 := with_svc (set_state {| capture_enabled := false; paused := false |}) w in
  let w2 := _shutdown_proxy_locked join w1 in
  with_svc (fun s =>
    set_current_port None
      (_status (lit "stopped") (lit "Stopped") (current_port s) s)) w2.

Definition pause (w : World) : World :=
  if negb (thread_alive w) then w
  else
    with_svc (fun s =>
      _status (lit "paused") (lit "Paused") (current_port s)
        (set_state {| capture_enabled := capture_enabled (state s);
                      paused := true |} s)) w.

Definition resume (w : World) : World :=
  if negb (thread_alive w) then w
  else
    with_svc (fun s =>
      _status (lit "running") (_running_message (current_port s)) (current_port s)
        (set_state {| capture_enabled := capture_enabled (state s);
                      paused := false |} s)) w.

(** *** Serialized runs *)

(** One step of a run: a call that holds the lock throughout, or an engine
    thread leaving [run_proxy] on its own between two calls.  A call that
    raises hands its exception to the caller; the service stays as the
    call left it. *)
Inductive op : Type :=
| OpStart (port : Z) (join : join_outcome) (env : Z -> attempt)
| OpStop (join : join_outcome)
| OpPause
| OpResume
| OpEngineExit (t : nat) (exc : option pystr).

Definition step (w : World) (o : op) : World :=
  match o with
  | OpStart port join env => start port join env w
  | OpStop join => stop join w
  | OpPause => pause w
  | OpResume => resume w
  | OpEngineExit t exc =>
      if existsb (Nat.eqb t) (live w) then run_proxy_exit t exc w else w
  end.

Definition run (ops : list op) (w : World) : World := fold_left step ops w.

(** ** Specification-side definitions *)

(** The content-encoding step as the specification words it: the first of
    gzip, deflate, br named by the header selects the decompressor; a
    failed or unavailable decompressor gives the input back. *)
Definition recovered (data : bytes) (r : result bytes) : bytes :=
  match r with
  | Ok b => b
  | Raise _ => data
  end.

Definition undo_spec `{Runtime} (data : bytes) (content_encoding : pystr) : bytes :=
  if str_in (lit "gzip") content_encoding
  then recovered data (gzip_decompress data)
  else if str_in (lit "deflate") content_encoding
  then recovered data (zlib_decompress data)
  else if str_in (lit "br") content_encoding
  then match brotli_decompress with
       | Some decompress => recovered data (decompress data)
       | None => data
       end
  else data.

(** The value of [_decode_for_display] on a non-empty body, with the
    exception plumbing resolved. *)
Definition shown `{Runtime} (data : bytes) (headers : Headers) : pystr :=
  let content_type := str_lower (_get_header_value headers (lit "content-type")) in
  let content_encoding := str_lower (_get_header_value headers (lit "content-encoding")) in
  let lowered_ct := str_lower content_type in
  let decoded := _safe_decode (undo_spec data content_encoding) in
  if (any_hint_in BINARY_CONTENT_HINTS lowered_ct
        && negb (any_hint_in TEXTUAL_CONTENT_HINTS lowered_ct))
     || (snd decoded && negb (any_hint_in TEXTUAL_CONTENT_HINTS lowered_ct))
     || _looks_binary_from_text (fst decoded)
  then placeholder (str_or content_type (lit "binary/unknown")) (len data)
  else fst decoded.

(** [a / b > 8/100] over the rationals. *)
Definition exact_exceeds (a b : Z) : bool := 8 * b <? 100 * a.

(** The float test and the exact test agree at [(a, b)], [(a - 1, b)],
    ..., [(a - fuel, b)]. *)
Fixpoint agree_row (fuel : nat) (a b : Z) : bool :=
  Bool.eqb (ratio_exceeds a b) (exact_exceeds a b)
  && match fuel with
     | O => true
     | S k => agree_row k (a - 1) b
     end.

(** ... and on the rows [0 .. b] of the denominators [b], [b - 1], ...,
    [b - fuel]. *)
Fixpoint agree_rows (fuel : nat) (b : Z) : bool :=
  agree_row (Z.to_nat b) b b
  && match fuel with
     | O => true
     | S k => agree_rows k (b - 1)
     end.

(** The exception message that a failed search leaves in
    [_last_start_error]: that of the last candidate whose engine thread
    raised, [acc] when none did. *)
Fixpoint last_exception (env : Z -> attempt) (candidates : list Z) (acc : pystr)
    : pystr :=
  match candidates with
  | [] => acc
  | c :: rest =>
      match env c with
      | EngineDown (Joined (Some message)) => last_exception env rest message
      | _ => last_exception env rest acc
      end
  end.

Definition event_message (e : event) : pystr :=
  match e with
  | StatusEvent _ message _ => message
  | ErrorEvent message => message
  | FlowEvent _ => []
  end.

(** The state in which [start] reaches its search. *)
Definition before_search (join : join_outcome) (w : World) : World :=
  if thread_alive w then _shutdown_proxy_locked join w else w.

(** Runs in which every bounded join ends with the thread gone. *)
Definition clean_join (j : join_outcome) : Prop :=
  match j with
  | Joined _ => True
  | TimedOut => False
  end.

Definition clean_op (o : op) : Prop :=
  match o with
  | OpStart _ join env => clean_join join /\ forall c, env c <> EngineDown TimedOut
  | OpStop join => clean_join join
  | _ => True
  end.

(** A candidate that [start] passes over: occupied, or not reachable in
    time. *)
Definition occupied_or_unreachable (a : attempt) : Prop :=
  match a with
  | PortBusy | EngineDown _ => True
  | EngineUp | EngineGone _ => False
  end.

(** Runs in which no [start] meets a reachable port whose engine thread is
    gone. *)
Definition calm_op (o : op) : Prop :=
  match o with
  | OpStart _ _ env => forall c exc, env c <> EngineGone exc
  | _ => True
  end.

(** Runs in which no engine thread leaves [run_proxy] on its own. *)
Definition steady_op (o : op) : Prop :=
  match o with
  | OpEngineExit _ _ => False
  | _ => True
  end.

(** The service holds the one live engine thread, bound to a port. *)
Definition busy (w : World) : Prop :=
  exists t, live w = [t] /\ proxy_thread (svc w) = Some t
            /\ current_port (svc w) <> None.

(** No engine thread is alive and none is held. *)
Definition idle (w : World) : Prop :=
  live w = [] /\ proxy_thread (svc w) = None.

Definition tidy (w : World) : Prop := idle w \/ busy w.

(** A port that is set is backed by a live held thread or by the
    in-progress flag. *)
Definition covered (w : World) : Prop :=
  current_port (svc w) <> None ->
  thread_alive w = true \/ _start_in_progress (svc w) = true.

(** A held thread is alive and bound to a port. *)
Definition held_is_bound (w : World) : Prop :=
  forall t, proxy_thread (svc w) = Some t ->
            In t (live w) /\ current_port (svc w) <> None.

(** The [status] field of a status event; empty for the other events. *)
Definition event_status (e : event) : pystr :=
  match e with
  | StatusEvent status _ _ => status
  | _ => []
  end.

(** The ports asked for by the [start] calls of a run. *)
Definition requested_ports (ops : list op) : list Z :=
  flat_map (fun o => match o with
                     | OpStart port _ _ => [port]
                     | _ => []
                     end) ops.

(** What the engine thread queues on its way out when [stop] shuts it
    down: an error and a [stopped] status if it raised and no start is in
    progress, nothing otherwise. *)
Definition shutdown_events (join : join_outcome) (w : World) : list event :=
  if thread_alive w && negb (_start_in_progress (svc w))
  then match join with
       | Joined (Some message) =>
           [ErrorEvent message;
            StatusEvent (lit "stopped") (lit "Stopped") (current_port (svc w))]
       | _ => []
       end
  else [].

(** A [stop], or a [start] that returns, called on [w]. *)
Definition replies (o : op) (w : World) : bool :=
  match o with
  | OpStart port join env =>
      match start_raises port join env w with
      | None => true
      | Some _ => false
      end
  | OpStop _ => true
  | _ => false
  end.

(** The number of calls of a run from [w] that are a [stop] or a [start]
    that returns. *)
Fixpoint replied (ops : list op) (w : World) : nat :=
  match ops with
  | [] => 0
  | o :: rest => (if replies o w then 1 else 0) + replied rest (step w o)
  end.

(** Every bound port lies within 20 above one of [ports]. *)
Definition bound_near (ports : list Z) (w : World) : Prop :=
  forall c, current_port (svc w) = Some c ->
            exists port, In port ports /\ port <= c <= port + 20.

(** ** An example runtime

    One instance of [Runtime], used to evaluate the definitions on concrete
    inputs: lower-casing of the ASCII letters, and a framing codec in the
    place of gzip (a two-byte magic number followed by the payload). *)

Definition ascii_lower (c : Z) : Z :=
  if (65 <=? c) && (c <=? 90) then c + 32 else c.

Definition framed_compress (payload : bytes) : bytes := 0x1f :: 0x8b :: payload.

Definition framed_decompress (data : bytes) : result bytes :=
  match data with
  | 0x1f :: 0x8b :: payload => Ok payload
  | _ => Raise BadGzipFile
  end.

Definition example_runtime : Runtime :=
  {| str_lower := map ascii_lower;
     gzip_decompress := framed_decompress;
     zlib_decompress := fun _ => Raise ZlibError;
     brotli_decompress := None |}.

(** * Properties *)

(** ** Strings and lengths *)

Lemma len_nonneg {A : Type} (l : list A) : 0 <= len l.
Proof. unfold len. lia. Qed.

Lemma len_nil_iff {A : Type} (l : list A) : len l = 0 <-> l = [].
Proof.
  unfold len. destruct l as [|x l]; cbn [List.length]; split; intro E;
    try reflexivity; try discriminate; lia.
Qed.

Lemma len_firstn {A : Type} (n : nat) (l : list A) :
  len (firstn n l) = Z.min (Z.of_nat n) (len l).
Proof. unfold len. rewrite length_firstn. lia. Qed.

Lemma startswith_app (p s : pystr) : startswith p (p ++ s) = true.
Proof.
  induction p as [|x p IH]; cbn [startswith app].
  - reflexivity.
  - rewrite Z.eqb_refl, IH. reflexivity.
Qed.

Lemma str_in_app (p a b : pystr) : str_in p (a ++ p ++ b) = true.
Proof.
  induction a as [|x a IH].
  - cbn [app]. destruct (p ++ b) as [|y r] eqn:E.
    + destruct p; [reflexivity | discriminate].
    + cbn [str_in]. rewrite <- E, startswith_app. reflexivity.
  - cbn [app str_in]. rewrite IH. apply orb_true_r.
Qed.

Lemma str_in_suffix (p a : pystr) : str_in p (a ++ p) = true.
Proof. rewrite <- (app_nil_r p) at 2. apply str_in_app. Qed.

(** ** Truncation *)

Lemma slice_to_cap (d : bytes) :
  MAX_BODY_CAPTURE < len d ->
  len (slice_to d MAX_BODY_CAPTURE) = MAX_BODY_CAPTURE.
Proof.
  intro H. unfold slice_to.
  change (MAX_BODY_CAPTURE <? 0) with false. cbv iota.
  rewrite len_firstn. unfold MAX_BODY_CAPTURE in *. lia.
Qed.

Lemma _truncate_bytes_len (d : bytes) :
  len (_truncate_bytes (Some d) MAX_BODY_CAPTURE) = Z.min (len d) MAX_BODY_CAPTURE.
Proof.
  unfold _truncate_bytes.
  destruct (Z.leb_spec (len d) MAX_BODY_CAPTURE) as [H|H].
  - lia.
  - rewrite slice_to_cap by exact H. lia.
Qed.

Lemma _truncate_bytes_nonempty (d : bytes) :
  d <> [] -> _truncate_bytes (Some d) MAX_BODY_CAPTURE <> [].
Proof.
  intros Hd E. apply Hd. apply len_nil_iff.
  pose proof (_truncate_bytes_len d) as L. rewrite E in L.
  change (len (@nil Z)) with 0 in L.
  pose proof (len_nonneg d). unfold MAX_BODY_CAPTURE in L. lia.
Qed.

Lemma _truncate_bytes_changes (d : bytes) :
  _truncate_bytes (Some d) MAX_BODY_CAPTURE <> d <-> MAX_BODY_CAPTURE < len d.
Proof.
  split.
  - intro Hne. unfold _truncate_bytes in Hne.
    destruct (Z.leb_spec (len d) MAX_BODY_CAPTURE) as [H|H]; [congruence | exact H].
  - intros H E. pose proof (_truncate_bytes_len d) as L. rewrite E in L. lia.
Qed.

(** ** The decoding never raises *)

Section Codec.

Context {rt : Runtime}.

Lemma undo_content_encoding_ok (data : bytes) (ce : pystr) :
  undo_content_encoding data ce = Ok (undo_spec data ce).
Proof.
  unfold undo_content_encoding, undo_spec.
  destruct (str_in (lit "gzip") ce).
  { destruct (gzip_decompress data); reflexivity. }
  destruct (str_in (lit "deflate") ce).
  { destruct (zlib_decompress data); reflexivity. }
  destruct (str_in (lit "br") ce); [|reflexivity].
  destruct brotli_decompress as [decompress|]; [|reflexivity].
  destruct (decompress data); reflexivity.
Qed.

Lemma _decode_for_display_nonempty (data : bytes) (headers : Headers) :
  data <> [] -> _decode_for_display data headers = Ok (shown data headers).
Proof.
  intro Hd. destruct data as [|b rest]; [congruence|].
  unfold _decode_for_display, shown.
  rewrite undo_content_encoding_ok. cbn [bind].
  destruct (_safe_decode _) as [text issue]. cbn [fst snd].
  match goal with |- (if ?c then _ else _) = _ => destruct c end; reflexivity.
Qed.

Lemma _decode_for_display_total (data : bytes) (headers : Headers) :
  exists s, _decode_for_display data headers = Ok s.
Proof.
  destruct data as [|b rest].
  - exists []. reflexivity.
  - eexists. apply _decode_for_display_nonempty. discriminate.
Qed.

End Codec.

(** ** Content-encoding and header lookup *)

(** C6. The content-encoding step never raises: on every input it returns
    the bytes the specification describes (gzip-inflate for gzip,
    zlib-inflate for deflate, the optional decoder for br, and the input
    itself after any failure or without a decoder); so does the whole of
    [_decode_for_display]. *)
Theorem content_encoding_step_never_raises (rt : Runtime)
    (data : bytes) (headers : Headers) (content_encoding : pystr) :
  undo_content_encoding data content_encoding = Ok (undo_spec data content_encoding)
  /\ (forall inflated,
        str_in (lit "gzip") content_encoding = true ->
        gzip_decompress data = Ok inflated ->
        undo_content_encoding data content_encoding = Ok inflated)
  /\ (forall inflated,
        str_in (lit "gzip") content_encoding = false ->
        str_in (lit "deflate") content_encoding = true ->
        zlib_decompress data = Ok inflated ->
        undo_content_encoding data content_encoding = Ok inflated)
  /\ ((exists e, gzip_decompress data = Raise e) ->
      (exists e, zlib_decompress data = Raise e) ->
      (brotli_decompress = None
       \/ exists decompress e,
            brotli_decompress = Some decompress /\ decompress data = Raise e) ->
      undo_content_encoding data content_encoding = Ok data)
  /\ exists s, _decode_for_display data headers = Ok s.
Proof.
  split; [apply undo_content_encoding_ok|].
  split.
  { intros inflated Hg Hz. rewrite undo_content_encoding_ok.
    unfold undo_spec. rewrite Hg, Hz. reflexivity. }
  split.
  { intros inflated Hg Hd Hz. rewrite undo_content_encoding_ok.
    unfold undo_spec. rewrite Hg, Hd, Hz. reflexivity. }
  split.
  { intros [e1 Hg] [e2 Hz] Hb. rewrite undo_content_encoding_ok.
    unfold undo_spec. rewrite Hg, Hz. cbn [recovered].
    destruct Hb as [Hb | (decompress & e3 & Hb & Hf)]; rewrite Hb;
      [|rewrite Hf; cbn [recovered]];
      repeat match goal with |- context [if ?c then _ else _] => destruct c end;
      reflexivity. }
  apply _decode_for_display_total.
Qed.

(** The step at the example runtime: a framed body is unwrapped, and a
    body that the codec rejects comes back as it was. *)
Lemma content_encoding_step_witness :
  @undo_content_encoding example_runtime (framed_compress (lit "hi")) (lit "gzip")
    = Ok (lit "hi")
  /\ @undo_content_encoding example_runtime (lit "hi") (lit "x-gzip, br")
    = Ok (lit "hi").
Proof.
  destruct (content_encoding_step_never_raises example_runtime
              (framed_compress (lit "hi")) None (lit "gzip"))
    as (_ & Hgzip & _).
  destruct (content_encoding_step_never_raises example_runtime
              (lit "hi") None (lit "x-gzip, br"))
    as (_ & _ & _ & Hfail & _).
  split.
  - apply Hgzip; reflexivity.
  - apply Hfail.
    + exists BadGzipFile. reflexivity.
    + exists ZlibError. reflexivity.
    + left. reflexivity.
Defined.

Lemma first_match_none {rt : Runtime} (target : pystr) (items : list (pystr * pystr)) :
  (forall k v, In (k, v) items -> str_eqb (str_lower k) target = false) ->
  first_match target items = [].
Proof.
  induction items as [|[k v] items IH]; intro Hno; cbn [first_match].
  - reflexivity.
  - rewrite (Hno k v) by (left; reflexivity).
    apply IH. intros k' v' Hin. apply (Hno k' v'). right. exact Hin.
Qed.

(** Header lookup is total: [_get_header_value] gives the empty string
    for [None], for an empty collection, and when no name equals the
    wanted one after lower-casing; hence [_decode_for_display] returns
    (the empty string for an empty body, the displayed value otherwise)
    when it is handed [None] for the headers. *)
Lemma header_lookup_total (rt : Runtime) :
  (forall name, _get_header_value None name = [])
  /\ (forall name, _get_header_value (Some []) name = [])
  /\ (forall items name,
        (forall k v, In (k, v) items ->
                     str_eqb (str_lower k) (str_lower name) = false) ->
        _get_header_value (Some items) name = [])
  /\ (forall data,
        _decode_for_display data None
        = Ok (match data with [] => [] | _ :: _ => shown data None end)).
Proof.
  split; [reflexivity|]. split; [reflexivity|]. split.
  - intros items name Hno. destruct items as [|item items]; [reflexivity|].
    unfold _get_header_value. apply first_match_none. exact Hno.
  - intros [|b rest]; [reflexivity|].
    apply _decode_for_display_nonempty. discriminate.
Qed.

(** The lookup at the example runtime: a collection without the header,
    and a body decoded with [None] for the headers. *)
Lemma header_lookup_total_witness :
  @_get_header_value example_runtime
     (Some [(lit "Server", lit "nginx")]) (lit "content-type") = []
  /\ @_decode_for_display example_runtime (lit "ok") None = Ok (lit "ok").
Proof.
  destruct (header_lookup_total example_runtime) as (_ & _ & Hmiss & Hnone).
  split.
  - apply Hmiss. intros k v [E|[]]. inversion E; subst. reflexivity.
  - rewrite Hnone. vm_compute. reflexivity.
Defined.



(** ** Truncation in the record *)

(** C2. In the record that [FlowCollector.response] queues, each body is
    decoded from at most [MAX_BODY_CAPTURE] (100 KiB) bytes, the sizes are
    those of the bodies as received, and a truncated flag is set exactly
    when the body as received is longer than the cap, which is exactly
    when truncation changed the bytes. *)
Theorem response_truncation (rt : Runtime)
    (st : CaptureState) (queue : list event) (flow : HTTPFlow) (resp : Response) :
  should_capture st = true ->
  flow_response flow = Some resp ->
  let req_body := content_or_empty (req_content (flow_request flow)) in
  let resp_body := content_or_empty (resp_content resp) in
  let req_passed := _truncate_bytes (Some req_body) MAX_BODY_CAPTURE in
  let resp_passed := _truncate_bytes (Some resp_body) MAX_BODY_CAPTURE in
  MAX_BODY_CAPTURE = 102400
  /\ len req_passed <= MAX_BODY_CAPTURE
  /\ len resp_passed <= MAX_BODY_CAPTURE
  /\ exists r,
       FlowCollector_response st queue flow = Ok (queue ++ [FlowEvent r])
       /\ _decode_for_display req_passed (req_headers (flow_request flow))
          = Ok (request_body r)
       /\ _decode_for_display resp_passed (resp_headers resp) = Ok (response_body r)
       /\ request_body_size r = len req_body
       /\ response_body_size r = len resp_body
       /\ (request_body_truncated r = true <-> MAX_BODY_CAPTURE < len req_body)
       /\ (response_body_truncated r = true <-> MAX_BODY_CAPTURE < len resp_body)
       /\ (request_body_truncated r = true <-> req_passed <> req_body)
       /\ (response_body_truncated r = true <-> resp_passed <> resp_body).
Proof.
  intros Hcap Hresp req_body resp_body req_passed resp_passed.
  split; [reflexivity|].
  split; [subst req_passed; rewrite _truncate_bytes_len; lia|].
  split; [subst resp_passed; rewrite _truncate_bytes_len; lia|].
  destruct (_decode_for_display_total req_passed (req_headers (flow_request flow)))
    as [req_shown Hreq].
  destruct (_decode_for_display_total resp_passed (resp_headers resp))
    as [resp_shown Hrsp].
  eexists. split.
  { unfold FlowCollector_response. rewrite Hcap, Hresp. cbn [negb].
    fold req_body resp_body. fold req_passed resp_passed.
    rewrite Hreq, Hrsp. cbn [bind]. reflexivity. }
  cbn [request_body response_body request_body_size response_body_size
       request_body_truncated response_body_truncated].
  repeat split; try assumption; try (apply Z.ltb_lt; assumption);
    try (intro H; apply Z.ltb_lt in H; exact H).
  - intro H. apply Z.ltb_lt in H. subst req_passed.
    apply _truncate_bytes_changes. exact H.
  - intro H. apply Z.ltb_lt. apply _truncate_bytes_changes. exact H.
  - intro H. apply Z.ltb_lt in H. subst resp_passed.
    apply _truncate_bytes_changes. exact H.
  - intro H. apply Z.ltb_lt. apply _truncate_bytes_changes. exact H.
Qed.

(** A response of 102401 bytes: the flag is set and 102400 bytes are
    decoded. *)
Lemma response_truncation_witness :
  let flow := {| flow_request := {| req_content := None; req_headers := Some [] |};
                 flow_response :=
                   Some {| resp_status_code := 200;
                           resp_content := Some (repeat 65 (Z.to_nat 102401));
                           resp_headers := Some [] |};
                 flow_error := None |} in
  exists r,
    @FlowCollector_response example_runtime
       {| capture_enabled := true; paused := false |} [] flow = Ok [FlowEvent r]
    /\ response_body_truncated r = true
    /\ request_body_truncated r = false
    /\ response_body_size r = 102401.
Proof.
  intro flow.
  destruct (response_truncation example_runtime
              {| capture_enabled := true; paused := false |} [] flow
              {| resp_status_code := 200;
                 resp_content := Some (repeat 65 (Z.to_nat 102401));
                 resp_headers := Some [] |} eq_refl eq_refl)
    as (_ & _ & _ & r & Hq & _ & _ & _ & Hsize & Hreq & Hrsp & _).
  exists r. split; [exact Hq|]. split; [|split].
  - apply Hrsp. vm_compute. reflexivity.
  - destruct (request_body_truncated r) eqn:E; [|reflexivity].
    exfalso. assert (H : MAX_BODY_CAPTURE < 0) by (apply Hreq; reflexivity).
    vm_compute in H. discriminate.
  - rewrite Hsize. vm_compute. reflexivity.
Defined.

(** ** The placeholder for declared binary content *)

(** C1 (as the code has it). When the declared content type matches the
    binary hints and none of the textual hints, truncating and decoding a
    non-empty body gives the placeholder, which names the content type and
    carries the number of bytes handed to [_decode_for_display]: the
    smaller of the body's length and the cap, hence the body's own length
    whenever it is at most 100 KiB.  An empty body gives the empty
    string. *)
Theorem binary_placeholder (rt : Runtime) (body : bytes) (headers : Headers) :
  let content_type := str_lower (_get_header_value headers (lit "content-type")) in
  let passed := _truncate_bytes (Some body) MAX_BODY_CAPTURE in
  let kind := str_or content_type (lit "binary/unknown") in
  any_hint_in BINARY_CONTENT_HINTS (str_lower content_type) = true ->
  any_hint_in TEXTUAL_CONTENT_HINTS (str_lower content_type) = false ->
  (body = [] -> _decode_for_display passed headers = Ok [])
  /\ (body <> [] ->
      _decode_for_display passed headers
      = Ok (placeholder kind (Z.min (len body) MAX_BODY_CAPTURE))
      /\ str_in (str_of_int (Z.min (len body) MAX_BODY_CAPTURE))
                (placeholder kind (Z.min (len body) MAX_BODY_CAPTURE)) = true
      /\ (len body <= MAX_BODY_CAPTURE ->
          _decode_for_display passed headers = Ok (placeholder kind (len body))
          /\ str_in (str_of_int (len body)) (placeholder kind (len body)) = true)).
Proof.
  intros content_type passed kind Hbin Htxt.
  split.
  { intros ->. reflexivity. }
  intro Hne.
  assert (Hshown : _decode_for_display passed headers
                   = Ok (placeholder kind (Z.min (len body) MAX_BODY_CAPTURE))).
  { subst passed. rewrite _decode_for_display_nonempty
      by (apply _truncate_bytes_nonempty; exact Hne).
    unfold shown. fold content_type. rewrite Hbin, Htxt. cbn [negb andb orb].
    rewrite _truncate_bytes_len. reflexivity. }
  assert (Hin : forall n, str_in (str_of_int n) (placeholder kind n) = true).
  { intro n. unfold placeholder.
    rewrite (app_assoc (lit "[binary body omitted: ")), app_assoc.
    apply str_in_app. }
  split; [exact Hshown|]. split; [apply Hin|].
  intro Hle. rewrite Z.min_l in Hshown by exact Hle.
  split; [exact Hshown | apply Hin].
Qed.

(** A PNG body of five bytes: the placeholder reports five bytes. *)
Lemma binary_placeholder_witness :
  @_decode_for_display example_runtime
     (_truncate_bytes (Some [137; 80; 78; 71; 13]) MAX_BODY_CAPTURE)
     (Some [(lit "Content-Type", lit "image/png")])
  = Ok (lit "[binary body omitted: image/png; 5 bytes]").
Proof.
  destruct (binary_placeholder example_runtime [137; 80; 78; 71; 13]
              (Some [(lit "Content-Type", lit "image/png")]) eq_refl eq_refl)
    as [_ H].
  destruct (H ltac:(discriminate)) as (_ & _ & Hsmall).
  destruct (Hsmall ltac:(vm_compute; discriminate)) as [E _].
  exact E.
Defined.

(** C1 fails as stated on a body longer than the cap (the placeholder
    carries the truncated count, here 102400 for a body of 102401 bytes)
    and on an empty body (no placeholder at all). *)
Lemma binary_placeholder_counterexample :
  let body := repeat 0 (Z.to_nat 102401) in
  let headers := Some [(lit "Content-Type", lit "image/png")] in
  let content_type :=
    @str_lower example_runtime
       (@_get_header_value example_runtime headers (lit "content-type")) in
  any_hint_in BINARY_CONTENT_HINTS (@str_lower example_runtime content_type) = true
  /\ any_hint_in TEXTUAL_CONTENT_HINTS (@str_lower example_runtime content_type) = false
  /\ len body = 102401
  /\ @_decode_for_display example_runtime
        (_truncate_bytes (Some body) MAX_BODY_CAPTURE) headers
      = Ok (lit "[binary body omitted: image/png; 102400 bytes]")
  /\ str_in (str_of_int (len body))
            (lit "[binary body omitted: image/png; 102400 bytes]") = false
  /\ @_decode_for_display example_runtime
        (_truncate_bytes (Some []) MAX_BODY_CAPTURE) headers
      = Ok [].
Proof.
  vm_compute. repeat split; reflexivity.
Qed.

(** ** The binary heuristic *)

Lemma agree_row_sound (fuel : nat) :
  forall a b, agree_row fuel a b = true ->
  forall a', a - Z.of_nat fuel <= a' <= a ->
  ratio_exceeds a' b = exact_exceeds a' b.
Proof.
  induction fuel as [|k IH]; intros a b H a' Ha'; cbn [agree_row] in H;
    apply andb_prop in H; destruct H as [Hhere Hrest].
  - assert (a' = a) by lia. subst a'. apply Bool.eqb_prop. exact Hhere.
  - destruct (Z.eq_dec a' a) as [->|Hne].
    + apply Bool.eqb_prop. exact Hhere.
    + apply (IH (a - 1) b Hrest). lia.
Qed.

Lemma agree_rows_sound (fuel : nat) :
  forall b, agree_rows fuel b = true ->
  forall a' b', b - Z.of_nat fuel <= b' <= b -> 0 <= a' <= b' ->
  ratio_exceeds a' b' = exact_exceeds a' b'.
Proof.
  induction fuel as [|k IH]; intros b H a' b' Hb' Ha'; cbn [agree_rows] in H;
    apply andb_prop in H; destruct H as [Hhere Hrest].
  - assert (b' = b) by lia. subst b'.
    apply (agree_row_sound _ _ _ Hhere). lia.
  - destruct (Z.eq_dec b' b) as [->|Hne].
    + apply (agree_row_sound _ _ _ Hhere). lia.
    + apply (IH (b - 1) Hrest); lia.
Qed.

(** Every quotient the heuristic can form, checked one by one. *)
Lemma ratio_table : agree_rows 1999 2000 = true.
Proof. vm_compute. reflexivity. Qed.

(** On the arguments the heuristic uses, the comparison of the rounded
    quotient with the rounded constant decides the exact inequality. *)
Lemma ratio_exceeds_exact (a b : Z) :
  0 <= a <= b -> 1 <= b <= 2000 -> ratio_exceeds a b = exact_exceeds a b.
Proof.
  intros Ha Hb. apply (agree_rows_sound 1999 2000 ratio_table); lia.
Qed.

Lemma count_control_replacement (s : pystr) :
  0 <= count_if is_control s + count_if is_replacement s <= len s.
Proof.
  unfold count_if, len.
  induction s as [|c s IH]; cbn [filter List.length]; [lia|].
  assert (Hdisj : is_control c && is_replacement c = false).
  { unfold is_control, is_replacement, REPLACEMENT.
    destruct (Z.ltb_spec c 32); destruct (Z.eqb_spec c 65533);
      cbn [andb]; try reflexivity; lia. }
  destruct (is_control c), (is_replacement c); cbn [List.length];
    try discriminate; lia.
Qed.

Lemma len_slice_to (s : pystr) (n : Z) :
  0 <= n -> len (slice_to s n) = Z.min n (len s).
Proof.
  intro Hn. unfold slice_to.
  destruct (Z.ltb_spec n 0); [lia|].
  rewrite len_firstn. lia.
Qed.

Lemma _looks_binary_from_text_exact (text : pystr) :
  let sample := slice_to text 2000 in
  _looks_binary_from_text text
  = exact_exceeds (count_if is_control sample + count_if is_replacement sample)
                  (len sample).
Proof.
  intro sample. destruct text as [|c text].
  - reflexivity.
  - unfold _looks_binary_from_text. fold sample.
    pose proof (count_control_replacement sample) as Hcount.
    assert (Hlen : 1 <= len sample <= 2000).
    { subst sample. rewrite len_slice_to by lia.
      unfold len. cbn [List.length]. lia. }
    rewrite Z.max_r by lia.
    apply ratio_exceeds_exact; lia.
Qed.

(** C7. Whatever the headers, if more than 8% of the first 2000 characters
    of the decoded text are control characters (below 32, other than tab,
    newline and carriage return) or U+FFFD, [_decode_for_display] returns
    the placeholder; without a declared content type the placeholder says
    [binary/unknown]. *)
Theorem control_heavy_text_is_binary (rt : Runtime)
    (data : bytes) (headers : Headers)
    (decoded_bytes : bytes) (text : pystr) (had_decode_issue : bool) :
  let content_type := str_lower (_get_header_value headers (lit "content-type")) in
  let content_encoding := str_lower (_get_header_value headers (lit "content-encoding")) in
  let sample := slice_to text 2000 in
  data <> [] ->
  undo_content_encoding data content_encoding = Ok decoded_bytes ->
  _safe_decode decoded_bytes = (text, had_decode_issue) ->
  8 * len sample < 100 * (count_if is_control sample + count_if is_replacement sample) ->
  _looks_binary_from_text text = true
  /\ _decode_for_display data headers
     = Ok (placeholder (str_or content_type (lit "binary/unknown")) (len data))
  /\ (content_type = [] ->
      _decode_for_display data headers
      = Ok (placeholder (lit "binary/unknown") (len data))).
Proof.
  intros content_type content_encoding sample Hne Hundo Hdec Hratio.
  assert (Hlooks : _looks_binary_from_text text = true).
  { rewrite _looks_binary_from_text_exact. fold sample.
    unfold exact_exceeds. apply Z.ltb_lt. exact Hratio. }
  assert (Hshown : _decode_for_display data headers
                   = Ok (placeholder (str_or content_type (lit "binary/unknown"))
                                     (len data))).
  { rewrite _decode_for_display_nonempty by exact Hne.
    unfold shown. fold content_type. fold content_encoding.
    rewrite undo_content_encoding_ok in Hundo. injection Hundo as Hundo.
    rewrite Hundo, Hdec. cbn [fst snd]. rewrite Hlooks.
    rewrite !orb_true_r. reflexivity. }
  split; [exact Hlooks|]. split; [exact Hshown|].
  intro Hct. rewrite Hshown, Hct. reflexivity.
Qed.

(** Ten characters of which one is NUL, no headers at all: one in ten is
    more than 8%. *)
Lemma control_heavy_text_witness :
  @_decode_for_display example_runtime (0 :: lit "plaintext") None
  = Ok (lit "[binary body omitted: binary/unknown; 10 bytes]").
Proof.
  destruct (control_heavy_text_is_binary example_runtime
              (0 :: lit "plaintext") None (0 :: lit "plaintext")
              (0 :: lit "plaintext") false
              ltac:(discriminate) eq_refl eq_refl
              ltac:(vm_compute; reflexivity))
    as (_ & _ & H).
  rewrite H by reflexivity. vm_compute. reflexivity.
Defined.

(** ** UTF-8 round trip *)

Ltac decide_cmp :=
  repeat match goal with
         | |- context [?a <=? ?b] => destruct (Z.leb_spec a b); try lia
         | |- context [?a <? ?b] => destruct (Z.ltb_spec a b); try lia
         | |- context [?a =? ?b] => destruct (Z.eqb_spec a b); try lia
         end;
  cbn [andb orb negb].

Lemma utf8_lead_ascii (b : Z) :
  0 <= b <= 0x7F -> utf8_lead b = LeadScalar b.
Proof. intro H. unfold utf8_lead. decide_cmp. reflexivity. Qed.

Lemma utf8_lead_two (b : Z) :
  0xC2 <= b <= 0xDF -> utf8_lead b = LeadPending (Pending 1 (b - 0xC0) 0x80 0xBF).
Proof. intro H. unfold utf8_lead. decide_cmp. reflexivity. Qed.

Lemma utf8_lead_three (b : Z) :
  0xE0 <= b <= 0xEF ->
  utf8_lead b
  = LeadPending (Pending 2 (b - 0xE0)
                   (if b =? 0xE0 then 0xA0 else 0x80)
                   (if b =? 0xED then 0x9F else 0xBF)).
Proof.
  intro H. unfold utf8_lead.
  destruct (Z.eqb_spec b 0xE0) as [->|H0]; [reflexivity|].
  destruct (Z.eqb_spec b 0xED) as [->|HD]; [reflexivity|].
  decide_cmp. reflexivity.
Qed.

Lemma utf8_lead_four (b : Z) :
  0xF0 <= b <= 0xF4 ->
  utf8_lead b
  = LeadPending (Pending 3 (b - 0xF0)
                   (if b =? 0xF0 then 0x90 else 0x80)
                   (if b =? 0xF4 then 0x8F else 0xBF)).
Proof.
  intro H. unfold utf8_lead.
  destruct (Z.eqb_spec b 0xF0) as [->|H0]; [reflexivity|].
  destruct (Z.eqb_spec b 0xF4) as [->|H4]; [reflexivity|].
  decide_cmp. reflexivity.
Qed.

Lemma utf8_cont_last (acc lo hi b : Z) :
  lo <= b <= hi ->
  utf8_cont 1 acc lo hi b = Some (LeadScalar (acc * 64 + (b - 0x80))).
Proof. intro H. unfold utf8_cont. decide_cmp. reflexivity. Qed.

Lemma utf8_cont_more (n : nat) (acc lo hi b : Z) :
  lo <= b <= hi ->
  utf8_cont (S (S n)) acc lo hi b
  = Some (LeadPending (Pending (S n) (acc * 64 + (b - 0x80)) 0x80 0xBF)).
Proof. intro H. unfold utf8_cont. decide_cmp. reflexivity. Qed.

(** Decoding an encoded scalar value gives it back and leaves the
    automaton at [Start]. *)
Lemma utf8_strict_encode_char (c : Z) (rest : bytes) :
  scalar c = true ->
  utf8_strict_from Start (utf8_encode_char c ++ rest)
  = bind (utf8_strict_from Start rest) (fun t => Ok (c :: t)).
Proof.
  unfold scalar. intro Hs.
  apply andb_prop in Hs. destruct Hs as [Hs Hsur].
  apply andb_prop in Hs. destruct Hs as [H0 Hmax].
  apply Z.leb_le in H0. apply Z.ltb_lt in Hmax.
  assert (Hns : c < 0xD800 \/ 0xDFFF < c).
  { destruct (Z.leb_spec 0xD800 c); destruct (Z.leb_spec c 0xDFFF);
      cbn in Hsur; try discriminate; lia. }
  clear Hsur. unfold utf8_encode_char.
  destruct (Z.ltb_spec c 0x80) as [H1|H1].
  { cbn [app utf8_strict_from]. rewrite utf8_lead_ascii by lia. reflexivity. }
  destruct (Z.ltb_spec c 0x800) as [H2|H2].
  { cbn [app utf8_strict_from].
    rewrite utf8_lead_two by (Z.div_mod_to_equations; lia).
    rewrite utf8_cont_last by (Z.div_mod_to_equations; lia).
    replace ((0xC0 + c / 64 - 0xC0) * 64 + (0x80 + c mod 64 - 0x80)) with c
      by (Z.div_mod_to_equations; lia).
    reflexivity. }
  destruct (Z.ltb_spec c 0x10000) as [H3|H3].
  { cbn [app utf8_strict_from].
    rewrite utf8_lead_three by (Z.div_mod_to_equations; lia).
    assert (Hsecond :
      (if 0xE0 + c / 4096 =? 0xE0 then 0xA0 else 0x80)
        <= 0x80 + (c / 64) mod 64
        <= (if 0xE0 + c / 4096 =? 0xED then 0x9F else 0xBF)).
    { destruct (Z.eqb_spec (0xE0 + c / 4096) 0xE0);
        destruct (Z.eqb_spec (0xE0 + c / 4096) 0xED);
        Z.div_mod_to_equations; lia. }
    rewrite utf8_cont_more by exact Hsecond.
    rewrite utf8_cont_last by (Z.div_mod_to_equations; lia).
    replace (((0xE0 + c / 4096 - 0xE0) * 64 + (0x80 + (c / 64) mod 64 - 0x80)) * 64
             + (0x80 + c mod 64 - 0x80)) with c
      by (Z.div_mod_to_equations; lia).
    reflexivity. }
  cbn [app utf8_strict_from].
  rewrite utf8_lead_four by (Z.div_mod_to_equations; lia).
  assert (Hsecond :
    (if 0xF0 + c / 262144 =? 0xF0 then 0x90 else 0x80)
      <= 0x80 + (c / 4096) mod 64
      <= (if 0xF0 + c / 262144 =? 0xF4 then 0x8F else 0xBF)).
  { destruct (Z.eqb_spec (0xF0 + c / 262144) 0xF0);
      destruct (Z.eqb_spec (0xF0 + c / 262144) 0xF4);
      Z.div_mod_to_equations; lia. }
  rewrite utf8_cont_more by exact Hsecond.
  rewrite utf8_cont_more by (Z.div_mod_to_equations; lia).
  rewrite utf8_cont_last by (Z.div_mod_to_equations; lia).
  replace ((((0xF0 + c / 262144 - 0xF0) * 64 + (0x80 + (c / 4096) mod 64 - 0x80)) * 64
            + (0x80 + (c / 64) mod 64 - 0x80)) * 64
           + (0x80 + c mod 64 - 0x80)) with c
    by (Z.div_mod_to_equations; lia).
  reflexivity.
Qed.

Lemma utf8_roundtrip (text : pystr) :
  forallb scalar text = true -> utf8_decode (utf8_encode text) = Ok text.
Proof.
  unfold utf8_decode, utf8_encode.
  induction text as [|c text IH]; intro Hs; cbn [flat_map].
  - reflexivity.
  - cbn [forallb] in Hs. apply andb_prop in Hs. destruct Hs as [Hc Ht].
    rewrite utf8_strict_encode_char by exact Hc.
    rewrite IH by exact Ht. reflexivity.
Qed.

Lemma utf8_encode_char_nonempty (c : Z) : utf8_encode_char c <> [].
Proof.
  unfold utf8_encode_char.
  destruct (c <? 0x80); [discriminate|].
  destruct (c <? 0x800); [discriminate|].
  destruct (c <? 0x10000); discriminate.
Qed.

Lemma _safe_decode_encoded (text : pystr) :
  forallb scalar text = true -> _safe_decode (utf8_encode text) = (text, false).
Proof.
  intro Hs. unfold _safe_decode.
  destruct (utf8_encode text) as [|b rest] eqn:E.
  - destruct text as [|c text]; [reflexivity|].
    unfold utf8_encode in E. cbn [flat_map] in E.
    apply app_eq_nil in E. destruct E as [E _].
    destruct (utf8_encode_char_nonempty c E).
  - rewrite <- E. rewrite utf8_roundtrip by exact Hs. reflexivity.
Qed.

Example utf8_decode_samples :
  utf8_decode [0xE2; 0x82; 0xAC] = Ok [0x20AC]
  /\ utf8_decode [0xF0; 0x9F; 0x98; 0x80] = Ok [0x1F600]
  /\ utf8_decode [0xED; 0xA0; 0x80] = Raise UnicodeDecodeError
  /\ utf8_decode_replace [0x61; 0xE2; 0x82; 0xE2; 0x82; 0xAC; 0x62]
     = [0x61; REPLACEMENT; 0x20AC; 0x62]
  /\ utf8_decode_replace [0xF0; 0x90; 0x41] = [REPLACEMENT; 0x41]
  /\ utf8_decode_replace [0xE0; 0x80] = [REPLACEMENT; REPLACEMENT].
Proof. repeat split; reflexivity. Qed.

(** ** The gzip round trip *)

Section GzipRoundTrip.

Context {rt : Runtime}.

(** [gzip.compress], known only through its inverse. *)
Variable gzip_compress : bytes -> bytes.
Hypothesis gzip_inverse : forall b, gzip_decompress (gzip_compress b) = Ok b.
Hypothesis gzip_nonempty : forall b, gzip_compress b <> [].

Variable headers : Headers.

Let content_type := str_lower (_get_header_value headers (lit "content-type")).
Let content_encoding := str_lower (_get_header_value headers (lit "content-encoding")).

Hypothesis names_gzip : str_in (lit "gzip") content_encoding = true.

Lemma shown_gzip_text (text : pystr) :
  forallb scalar text = true ->
  _decode_for_display (gzip_compress (utf8_encode text)) headers
  = Ok (if (any_hint_in BINARY_CONTENT_HINTS (str_lower content_type)
              && negb (any_hint_in TEXTUAL_CONTENT_HINTS (str_lower content_type)))
           || _looks_binary_from_text text
        then placeholder (str_or content_type (lit "binary/unknown"))
                         (len (gzip_compress (utf8_encode text)))
        else text).
Proof.
  intro Hs.
  rewrite _decode_for_display_nonempty by apply gzip_nonempty.
  unfold shown. fold content_type. fold content_encoding.
  unfold undo_spec. rewrite names_gzip, gzip_inverse. cbn [recovered].
  rewrite _safe_decode_encoded by exact Hs. cbn [fst snd andb].
  rewrite orb_false_r. reflexivity.
Qed.

End GzipRoundTrip.

(** C8 (as the code has it). Gzip-compressing a UTF-8 text and decoding it
    under a content-encoding that names gzip gives the text back, provided
    the text does not trip the binary heuristic and the declared content
    type is not binary-only. *)
Theorem gzip_text_round_trip (rt : Runtime) (gzip_compress : bytes -> bytes)
    (headers : Headers) (text : pystr) :
  let content_type := str_lower (_get_header_value headers (lit "content-type")) in
  let content_encoding := str_lower (_get_header_value headers (lit "content-encoding")) in
  (forall b, gzip_decompress (gzip_compress b) = Ok b) ->
  (forall b, gzip_compress b <> []) ->
  forallb scalar text = true ->
  str_in (lit "gzip") content_encoding = true ->
  any_hint_in BINARY_CONTENT_HINTS (str_lower content_type)
    && negb (any_hint_in TEXTUAL_CONTENT_HINTS (str_lower content_type)) = false ->
  _looks_binary_from_text text = false ->
  utf8_decode (utf8_encode text) = Ok text
  /\ _decode_for_display (gzip_compress (utf8_encode text)) headers = Ok text.
Proof.
  intros content_type content_encoding Hinv Hne Hs Hgz Hct Hlooks.
  split; [apply utf8_roundtrip; exact Hs|].
  rewrite (shown_gzip_text gzip_compress Hinv Hne headers Hgz text Hs).
  fold content_type. rewrite Hct, Hlooks. reflexivity.
Qed.

Lemma framed_inverse (b : bytes) :
  @gzip_decompress example_runtime (framed_compress b) = Ok b.
Proof. reflexivity. Qed.

(** The text "héllo €" under [Content-Encoding: gzip] and
    [Content-Type: text/plain]. *)
Lemma gzip_text_round_trip_witness :
  @_decode_for_display example_runtime
     (framed_compress (utf8_encode [104; 233; 108; 108; 111; 32; 8364]))
     (Some [(lit "Content-Type", lit "text/plain; charset=utf-8");
            (lit "Content-Encoding", lit "gzip")])
  = Ok [104; 233; 108; 108; 111; 32; 8364].
Proof.
  apply (gzip_text_round_trip example_runtime framed_compress
           (Some [(lit "Content-Type", lit "text/plain; charset=utf-8");
                  (lit "Content-Encoding", lit "gzip")])
           [104; 233; 108; 108; 111; 32; 8364]).
  - exact framed_inverse.
  - discriminate.
  - reflexivity.
  - reflexivity.
  - reflexivity.
  - vm_compute. reflexivity.
Defined.

(** C8 fails as stated: the one-character text NUL is valid UTF-8, yet its
    compressed form is shown as a placeholder; so is the text "hello" when
    the response declares [image/png]. *)
Lemma gzip_text_round_trip_counterexample :
  let gz_only := Some [(lit "Content-Encoding", lit "gzip")] in
  let gz_png := Some [(lit "Content-Type", lit "image/png");
                      (lit "Content-Encoding", lit "gzip")] in
  (forall b, @gzip_decompress example_runtime (framed_compress b) = Ok b)
  /\ forallb scalar [0] = true
  /\ utf8_encode [0] = [0]
  /\ str_in (lit "gzip")
        (@str_lower example_runtime
           (@_get_header_value example_runtime gz_only (lit "content-encoding"))) = true
  /\ @_decode_for_display example_runtime (framed_compress (utf8_encode [0])) gz_only
     = Ok (lit "[binary body omitted: binary/unknown; 3 bytes]")
  /\ @_decode_for_display example_runtime (framed_compress (utf8_encode [0])) gz_only
     <> Ok [0]
  /\ @_decode_for_display example_runtime
        (framed_compress (utf8_encode (lit "hello"))) gz_png
     = Ok (lit "[binary body omitted: image/png; 7 bytes]").
Proof.
  cbv zeta. split; [exact framed_inverse|].
  repeat split; try reflexivity.
  vm_compute. discriminate.
Qed.

(** ** The candidate search *)

Lemma range_length (lo hi : Z) : List.length (range lo hi) = Z.to_nat (hi - lo).
Proof. unfold range. rewrite length_map, length_seq. reflexivity. Qed.

Lemma _candidate_ports_spec (port : Z) :
  _candidate_ports port = map (fun i => port + Z.of_nat i) (seq 0 21).
Proof.
  unfold _candidate_ports, range.
  replace (Z.to_nat (port + 21 - (port + 1))) with 20%nat by lia.
  cbn [seq map]. rewrite Z.add_0_r.
  repeat (f_equal; try lia).
Qed.

Lemma thread_alive_launch (c : Z) (w : World) : thread_alive (launch c w) = true.
Proof.
  unfold thread_alive, launch. cbn. rewrite Nat.eqb_refl. reflexivity.
Qed.

Lemma thread_alive_no_thread (w : World) :
  proxy_thread (svc w) = None -> thread_alive w = false.
Proof. unfold thread_alive. intros ->. reflexivity. Qed.

(** One failed attempt while a start is in progress: nothing is queued,
    the flags stay, no thread is held afterwards. *)
Lemma attempt_down (j : join_outcome) (c : Z) (w : World) :
  _start_in_progress (svc w) = true ->
  let w' := _shutdown_proxy_locked j (launch c w) in
  event_queue (svc w') = event_queue (svc w)
  /\ state (svc w') = state (svc w)
  /\ _start_in_progress (svc w') = true
  /\ proxy_thread (svc w') = None
  /\ _last_start_error (svc w')
     = match j with
       | Joined (Some message) => message
       | _ => _last_start_error (svc w)
       end.
Proof.
  intros Hin w'. subst w'. unfold _shutdown_proxy_locked.
  rewrite thread_alive_launch.
  replace (proxy_thread (svc (launch c w))) with (Some (spawned w)) by reflexivity.
  destruct j as [[message|]|]; unfold run_proxy_exit; cbn; rewrite ?Hin; cbn;
    repeat split; assumption.
Qed.

(** The attempt on a reachable port whose engine thread is gone: the
    liveness check raises with the candidate recorded, the references
    cleared by the thread, and nothing queued while a start is in
    progress. *)
Lemma attempt_gone (exc : option pystr) (c : Z) (w : World) :
  _start_in_progress (svc w) = true ->
  let w' := run_proxy_exit (spawned w) exc (launch c w) in
  event_queue (svc w') = event_queue (svc w)
  /\ state (svc w') = state (svc w)
  /\ _start_in_progress (svc w') = true
  /\ proxy_thread (svc w') = None
  /\ proxy_master (svc w') = None
  /\ proxy_loop (svc w') = None
  /\ current_port (svc w') = Some c
  /\ _last_start_error (svc w')
     = match exc with
       | Some message => message
       | None => _last_start_error (svc w)
       end.
Proof.
  intros Hin w'. subst w'. unfold run_proxy_exit.
  destruct exc as [message|]; cbn; rewrite ?Hin; cbn; repeat split; assumption.
Qed.

Lemma search_exhausted (env : Z -> attempt) (candidates : list Z) :
  forall w,
  (forall c, In c candidates -> occupied_or_unreachable (env c)) ->
  _start_in_progress (svc w) = true ->
  thread_alive w = false ->
  let r := search env candidates w in
  snd r = Exhausted
  /\ event_queue (svc (fst r)) = event_queue (svc w)
  /\ state (svc (fst r)) = state (svc w)
  /\ thread_alive (fst r) = false
  /\ _last_start_error (svc (fst r))
     = last_exception env candidates (_last_start_error (svc w)).
Proof.
  induction candidates as [|c rest IH]; intros w Hdown Hin Hdead; cbn [search].
  - cbn. repeat split; assumption || reflexivity.
  - assert (Hrest : forall c', In c' rest -> occupied_or_unreachable (env c'))
      by (intros c' Hc'; apply Hdown; right; exact Hc').
    pose proof (Hdown c (or_introl eq_refl)) as Hc.
    cbn [last_exception].
    destruct (env c) as [| |exc|j] eqn:Ec; try (destruct Hc).
    + apply IH; assumption.
    + destruct (attempt_down j c w Hin) as (Hq & Hst & Hin' & Hth & Herr).
      destruct (IH (_shutdown_proxy_locked j (launch c w)) Hrest Hin'
                  (thread_alive_no_thread _ Hth)) as (Hs & Hq' & Hst' & Hd' & He').
      cbv zeta. rewrite Hs, Hq', Hst', Hd', He', Hq, Hst, Herr.
      repeat split; try reflexivity.
      destruct j as [[message|]|]; reflexivity.
Qed.

Lemma start_search_fields (port : Z) (env : Z -> attempt) (w : World) :
  let r := search env (_candidate_ports port)
             (with_svc (fun s =>
                set_last_start_error []
                  (set_start_in_progress true
                     (set_state {| capture_enabled := true; paused := false |} s))) w) in
  let w' := fst (start_search port env w) in
  live w' = live (fst r)
  /\ proxy_thread (svc w') = proxy_thread (svc (fst r))
  /\ _start_in_progress (svc w')
     = match snd r with
       | Raised _ => _start_in_progress (svc (fst r))
       | _ => false
       end
  /\ state (svc w') = state (svc (fst r))
  /\ current_port (svc w')
     = match snd r with
       | Exhausted => None
       | _ => current_port (svc (fst r))
       end
  /\ event_queue (svc w')
     = event_queue (svc (fst r))
       ++ match snd r with
          | Exhausted =>
              [failure_status port;
               failure_error port
                 (str_or (_last_start_error (svc (fst r))) hint_busy)]
          | _ => []
          end
  /\ snd (start_search port env w)
     = match snd r with
       | Raised e => Some e
       | _ => None
       end.
Proof.
  intros r w'. subst r w'. unfold start_search.
  destruct (search env (_candidate_ports port) _) as [w2 [| |e]]; cbn.
  - rewrite app_nil_r. repeat split; reflexivity.
  - rewrite <- app_assoc. repeat split; reflexivity.
  - rewrite app_nil_r. repeat split; reflexivity.
Qed.

Lemma start_reaches_search (port : Z) (join : join_outcome) (env : Z -> attempt)
    (w : World) :
  thread_alive w && port_eqb (current_port (svc w)) port = false ->
  start_call port join env w = start_search port env (before_search join w)
  /\ thread_alive (before_search join w) = false.
Proof.
  intro Hreach. unfold start_call, before_search.
  destruct (thread_alive w) eqn:Ealive.
  - cbn [andb] in Hreach. rewrite Hreach. split; [reflexivity|].
    apply thread_alive_no_thread.
    unfold _shutdown_proxy_locked. reflexivity.
  - split; [reflexivity | exact Ealive].
Qed.

Lemma exhausted_start (port : Z) (join : join_outcome) (env : Z -> attempt)
    (w : World) :
  thread_alive w && port_eqb (current_port (svc w)) port = false ->
  (forall c, In c (_candidate_ports port) -> occupied_or_unreachable (env c)) ->
  let w' := start port join env w in
  let captured := last_exception env (_candidate_ports port) [] in
  current_port (svc w') = None
  /\ state (svc w') = {| capture_enabled := true; paused := false |}
  /\ thread_alive w' = false
  /\ _start_in_progress (svc w') = false
  /\ event_queue (svc w')
     = event_queue (svc (before_search join w))
       ++ [failure_status port; failure_error port (str_or captured hint_busy)]
  /\ start_raises port join env w = None.
Proof.
  intros Hreach Hdown w' captured. subst w' captured.
  unfold start, start_raises.
  destruct (start_reaches_search port join env w Hreach) as [-> Hdead].
  destruct (start_search_fields port env (before_search join w))
    as (Hlive & Hth & Hin & Hst & Hport & Hq & Hexn).
  set (w1 := with_svc _ (before_search join w)) in *.
  assert (Hdead1 : thread_alive w1 = false) by exact Hdead.
  destruct (search_exhausted env (_candidate_ports port) w1 Hdown eq_refl Hdead1)
    as (Hs & Hq' & Hst' & Hd' & He').
  rewrite Hs in Hport, Hq, Hin, Hexn.
  rewrite Hport, Hst, Hst', Hin, Hq, Hq', He', Hexn.
  repeat split; try reflexivity.
  unfold thread_alive in *. rewrite Hlive, Hth. exact Hd'.
Qed.

(** ** Exhaustion of the candidate ports *)

(** C5. When [start(P)] reaches its search and finds each of the 21
    candidates [P .. P+20] occupied or unreachable, it leaves [current_port] at [None] and queues,
    after whatever the queue held when the search began, exactly two
    events: one [stopped] status whose message names [P], then one error
    whose message names [P] and ends with the message of the last engine
    exception captured during the search, or with the busy-or-blocked hint
    when none (or an empty one) was captured. *)
Theorem start_exhaustion_events (port : Z) (join : join_outcome)
    (env : Z -> attempt) (w : World) :
  thread_alive w && port_eqb (current_port (svc w)) port = false ->
  (forall c, In c (_candidate_ports port) -> occupied_or_unreachable (env c)) ->
  let w' := start port join env w in
  let captured := last_exception env (_candidate_ports port) [] in
  let detail := str_or captured hint_busy in
  _candidate_ports port = map (fun i => port + Z.of_nat i) (seq 0 21)
  /\ current_port (svc w') = None
  /\ event_queue (svc w')
     = event_queue (svc (before_search join w))
       ++ [ StatusEvent (lit "stopped")
              (lit "Failed to start proxy near 127.0.0.1:" ++ str_of_int port)
              (Some port);
            ErrorEvent
              (lit "Proxy failed to start near 127.0.0.1:" ++ str_of_int port
               ++ lit ". " ++ detail) ]
  /\ str_in (str_of_int port) (event_message (failure_status port)) = true
  /\ str_in (str_of_int port) (event_message (failure_error port detail)) = true
  /\ str_in captured (event_message (failure_error port detail)) = true
  /\ (captured = [] -> detail = lit "Port may be busy or blocked.")
  /\ (captured <> [] -> detail = captured).
Proof.
  intros Hreach Hdown w' captured detail.
  destruct (exhausted_start port join env w Hreach Hdown)
    as (Hport & _ & _ & _ & Hq & _).
  split; [apply _candidate_ports_spec|].
  split; [exact Hport|].
  split; [exact Hq|].
  split.
  { cbn [event_message failure_status]. apply str_in_suffix. }
  split.
  { cbn [event_message failure_error]. apply str_in_app. }
  split.
  { cbn [event_message failure_error]. subst detail.
    destruct captured as [|x captured'] eqn:Ecap.
    - reflexivity.
    - cbn [str_or]. rewrite !app_assoc. apply str_in_suffix. }
  split.
  - intro E. subst detail. rewrite E. reflexivity.
  - intro Hne. subst detail. destruct captured; [congruence | reflexivity].
Qed.

(** Port 8080 from a fresh service: twenty candidates are occupied and the
    engine raises on 8085. *)
Lemma start_exhaustion_witness :
  let env := fun c => if c =? 8085
                      then EngineDown (Joined (Some (lit "address in use")))
                      else PortBusy in
  let w' := start 8080 TimedOut env ProxyService_init in
  current_port (svc w') = None
  /\ event_queue (svc w')
     = [ StatusEvent (lit "stopped")
           (lit "Failed to start proxy near 127.0.0.1:8080") (Some 8080);
         ErrorEvent
           (lit "Proxy failed to start near 127.0.0.1:8080. address in use") ].
Proof.
  intros env w'.
  assert (Hdown : forall c, In c (_candidate_ports 8080) ->
                            occupied_or_unreachable (env c)).
  { intros c _. subst env. cbv beta. destruct (c =? 8085); exact I. }
  destruct (start_exhaustion_events 8080 TimedOut env ProxyService_init
              eq_refl Hdown) as (_ & Hport & Hq & _).
  split; [exact Hport | exact Hq].
Defined.

(** ** What a failed start leaves behind *)

(** C10. After a [start] whose 21 candidates all fail (each occupied or
    unreachable), [capture_enabled]
    is set and [paused] is clear, [current_port] is [None], no start is in
    progress and no engine thread is alive; the derived status is
    [stopped], and it would be [running] with the same flags if a thread
    were alive. *)
Theorem failed_start_leaves_flags (port : Z) (join : join_outcome)
    (env : Z -> attempt) (w : World) :
  thread_alive w && port_eqb (current_port (svc w)) port = false ->
  (forall c, In c (_candidate_ports port) -> occupied_or_unreachable (env c)) ->
  let w' := start port join env w in
  capture_enabled (state (svc w')) = true
  /\ paused (state (svc w')) = false
  /\ should_capture (state (svc w')) = true
  /\ current_port (svc w') = None
  /\ _start_in_progress (svc w') = false
  /\ thread_alive w' = false
  /\ current_status_payload w' = StatusEvent (lit "stopped") (lit "Ready") None
  /\ (forall v, state (svc v) = state (svc w') -> thread_alive v = true ->
                current_status_payload v
                = StatusEvent (lit "running")
                    (_running_message (current_port (svc v)))
                    (current_port (svc v))).
Proof.
  intros Hreach Hdown w'.
  destruct (exhausted_start port join env w Hreach Hdown)
    as (Hport & Hst & Hdead & Hin & _ & _).
  fold w' in Hport, Hst, Hdead, Hin.
  rewrite Hst. cbn [capture_enabled paused].
  repeat split; try assumption; try reflexivity.
  - unfold current_status_payload. rewrite Hdead, Hport. reflexivity.
  - intros v Hv Halive. unfold current_status_payload.
    rewrite Hv, Halive. reflexivity.
Qed.

(** A running service on 8080 asked to move to 9000 when nothing near 9000
    can be bound. *)
Lemma failed_start_witness :
  let up := start 8080 TimedOut (fun _ => EngineUp) ProxyService_init in
  let w' := start 9000 (Joined None) (fun _ => PortBusy) up in
  thread_alive up = true
  /\ capture_enabled (state (svc w')) = true
  /\ paused (state (svc w')) = false
  /\ current_port (svc w') = None
  /\ current_status_payload w' = StatusEvent (lit "stopped") (lit "Ready") None.
Proof.
  intros up w'.
  destruct (failed_start_leaves_flags 9000 (Joined None) (fun _ => PortBusy) up
              eq_refl ltac:(intros c _; exact I))
    as (Hc & Hp & _ & Hport & _ & _ & Hpay & _).
  split; [reflexivity|].
  split; [exact Hc|]. split; [exact Hp|]. split; [exact Hport | exact Hpay].
Defined.

(** ** The lifecycle invariant *)

Lemma existsb_eqb_In (t : nat) (l : list nat) :
  existsb (Nat.eqb t) l = true <-> In t l.
Proof.
  rewrite existsb_exists. split.
  - intros (u & Hin & E). apply Nat.eqb_eq in E. subst u. exact Hin.
  - intro Hin. exists t. split; [exact Hin | apply Nat.eqb_refl].
Qed.

Lemma thread_alive_iff (w : World) :
  thread_alive w = true <-> exists t, proxy_thread (svc w) = Some t /\ In t (live w).
Proof.
  unfold thread_alive. destruct (proxy_thread (svc w)) as [t|].
  - rewrite existsb_eqb_In. split.
    + intro H. exists t. split; [reflexivity | exact H].
    + intros (u & E & H). injection E as ->. exact H.
  - split; [discriminate | intros (u & E & _); discriminate].
Qed.

Lemma run_proxy_exit_refs (t : nat) (exc : option pystr) (w : World) :
  proxy_thread (svc (run_proxy_exit t exc w)) = None
  /\ _start_in_progress (svc (run_proxy_exit t exc w)) = _start_in_progress (svc w)
  /\ current_port (svc (run_proxy_exit t exc w)) = current_port (svc w)
  /\ live (run_proxy_exit t exc w) = filter (fun u => negb (Nat.eqb u t)) (live w).
Proof.
  unfold run_proxy_exit. destruct exc as [message|].
  - cbn [svc live set_last_start_error _start_in_progress].
    destruct (_start_in_progress (svc w)) eqn:E; cbn; rewrite ?E;
      repeat split; reflexivity.
  - cbn. repeat split; reflexivity.
Qed.

Lemma _shutdown_proxy_locked_refs (j : join_outcome) (w : World) :
  proxy_thread (svc (_shutdown_proxy_locked j w)) = None
  /\ _start_in_progress (svc (_shutdown_proxy_locked j w)) = _start_in_progress (svc w)
  /\ current_port (svc (_shutdown_proxy_locked j w)) = current_port (svc w).
Proof.
  unfold _shutdown_proxy_locked.
  destruct (proxy_thread (svc w)) as [t|]; [destruct j as [exc|]|];
    try (cbn; repeat split; reflexivity).
  destruct (thread_alive w); [|cbn; repeat split; reflexivity].
  destruct (run_proxy_exit_refs t exc w) as (_ & Hin & Hport & _).
  cbn [with_svc svc set_refs proxy_thread _start_in_progress current_port].
  rewrite Hin, Hport. repeat split; reflexivity.
Qed.

Lemma stop_refs (j : join_outcome) (w : World) :
  proxy_thread (svc (stop j w)) = None
  /\ current_port (svc (stop j w)) = None
  /\ _start_in_progress (svc (stop j w)) = _start_in_progress (svc w)
  /\ live (stop j w)
     = live (_shutdown_proxy_locked j
               (with_svc (set_state {| capture_enabled := false; paused := false |}) w)).
Proof.
  unfold stop.
  set (w1 := with_svc (set_state _) w).
  destruct (_shutdown_proxy_locked_refs j w1) as (Hth & Hin & _).
  cbn [with_svc svc live set_current_port _status put proxy_thread current_port
       _start_in_progress].
  rewrite Hth, Hin. repeat split; reflexivity.
Qed.

(** *** A held thread is alive and bound, on every run *)

Lemma search_held (env : Z -> attempt) (candidates : list Z) :
  forall w, proxy_thread (svc w) = None ->
  let r := search env candidates w in
  held_is_bound (fst r) /\ (snd r <> Started -> proxy_thread (svc (fst r)) = None).
Proof.
  induction candidates as [|c rest IH]; intros w Hnone; cbn [search].
  - cbn [fst snd]. split; [|intros _; exact Hnone].
    intros t Ht. rewrite Hnone in Ht. discriminate.
  - destruct (env c) as [| |exc|j].
    + apply IH. exact Hnone.
    + cbn [fst snd]. split; [|intro H; exfalso; apply H; reflexivity].
      intros t Ht. cbn in Ht. injection Ht as <-.
      cbn. split; [left; reflexivity | discriminate].
    + cbn [fst snd].
      pose proof (proj1 (run_proxy_exit_refs (spawned w) exc (launch c w))) as Hth.
      split; [|intros _; exact Hth].
      intros t Ht. rewrite Hth in Ht. discriminate.
    + apply IH. apply _shutdown_proxy_locked_refs.
Qed.

Lemma start_search_held (port : Z) (env : Z -> attempt) (w : World) :
  proxy_thread (svc w) = None -> held_is_bound (fst (start_search port env w)).
Proof.
  intro Hnone.
  destruct (start_search_fields port env w) as (Hlive & Hth & _ & _ & Hport & _).
  set (w1 := with_svc _ w) in *.
  destruct (search_held env (_candidate_ports port) w1 Hnone) as [Hheld Hfail].
  intros t Ht. rewrite Hth in Ht. rewrite Hlive, Hport.
  destruct (snd (search env (_candidate_ports port) w1)) as [| |e].
  - apply Hheld. exact Ht.
  - rewrite (Hfail ltac:(discriminate)) in Ht. discriminate.
  - rewrite (Hfail ltac:(discriminate)) in Ht. discriminate.
Qed.

Lemma held_not_alive (w : World) :
  held_is_bound w -> thread_alive w = false -> proxy_thread (svc w) = None.
Proof.
  intros Hheld Hdead. destruct (proxy_thread (svc w)) as [t|] eqn:E; [|reflexivity].
  destruct (Hheld t E) as [Hin _].
  assert (Halive : thread_alive w = true)
    by (apply thread_alive_iff; exists t; split; assumption).
  congruence.
Qed.

Lemma step_held (w : World) (o : op) :
  held_is_bound w -> held_is_bound (step w o).
Proof.
  intro Hheld. destruct o as [port join env|join| | |t exc]; cbn [step].
  - unfold start, start_call. destruct (thread_alive w) eqn:Ealive.
    + destruct (port_eqb (current_port (svc w)) port).
      * exact Hheld.
      * apply start_search_held. apply _shutdown_proxy_locked_refs.
    + apply start_search_held. apply held_not_alive; assumption.
  - intros t Ht. rewrite (proj1 (stop_refs join w)) in Ht. discriminate.
  - unfold pause. destruct (thread_alive w); [exact Hheld | exact Hheld].
  - unfold resume. destruct (thread_alive w); [exact Hheld | exact Hheld].
  - destruct (existsb (Nat.eqb t) (live w)); [|exact Hheld].
    intros u Hu. rewrite (proj1 (run_proxy_exit_refs t exc w)) in Hu. discriminate.
Qed.

Lemma run_held (ops : list op) :
  forall w, held_is_bound w -> held_is_bound (run ops w).
Proof.
  unfold run. induction ops as [|o ops IH]; intros w Hheld; cbn [fold_left].
  - exact Hheld.
  - apply IH. apply step_held. exact Hheld.
Qed.

(** *** The in-progress flag *)

Lemma search_in_progress (env : Z -> attempt) (candidates : list Z) :
  forall w,
  _start_in_progress (svc (fst (search env candidates w)))
  = _start_in_progress (svc w).
Proof.
  induction candidates as [|c rest IH]; intro w; cbn [search].
  - reflexivity.
  - destruct (env c) as [| |exc|j].
    + apply IH.
    + reflexivity.
    + cbn [fst].
      apply (proj1 (proj2 (run_proxy_exit_refs (spawned w) exc (launch c w)))).
    + rewrite IH.
      apply (proj1 (proj2 (_shutdown_proxy_locked_refs j (launch c w)))).
Qed.

Lemma search_calm (env : Z -> attempt) (candidates : list Z) :
  (forall c exc, env c <> EngineGone exc) ->
  forall w e, snd (search env candidates w) <> Raised e.
Proof.
  intro Hcalm.
  induction candidates as [|c rest IH]; intros w e; cbn [search].
  - discriminate.
  - destruct (env c) as [| |exc|j] eqn:Ec.
    + apply IH.
    + discriminate.
    + exfalso. exact (Hcalm c exc Ec).
    + apply IH.
Qed.

Lemma step_calm (w : World) (o : op) :
  calm_op o ->
  _start_in_progress (svc w) = false -> _start_in_progress (svc (step w o)) = false.
Proof.
  intros Hcalm Hin. destruct o as [port join env|join| | |t exc]; cbn [step].
  - assert (Hsearch : forall v, _start_in_progress (svc (fst (start_search port env v)))
                                = false).
    { intro v.
      destruct (start_search_fields port env v) as (_ & _ & E & _).
      rewrite E.
      set (r := search env (_candidate_ports port) _).
      pose proof (search_calm env (_candidate_ports port) Hcalm) as Hno.
      destruct (snd r) as [| |e] eqn:Er; try reflexivity.
      exfalso. exact (Hno _ e Er). }
    unfold start, start_call. destruct (thread_alive w).
    + destruct (port_eqb (current_port (svc w)) port); [exact Hin | apply Hsearch].
    + apply Hsearch.
  - destruct (stop_refs join w) as (_ & _ & E & _). rewrite E. exact Hin.
  - unfold pause. destruct (thread_alive w); exact Hin.
  - unfold resume. destruct (thread_alive w); exact Hin.
  - destruct (existsb (Nat.eqb t) (live w)); [|exact Hin].
    destruct (run_proxy_exit_refs t exc w) as (_ & E & _). rewrite E. exact Hin.
Qed.

Lemma run_calm (ops : list op) :
  Forall calm_op ops ->
  forall w, _start_in_progress (svc w) = false ->
  _start_in_progress (svc (run ops w)) = false.
Proof.
  unfold run. induction 1 as [|o ops Ho Hrest IH]; intros w Hin; cbn [fold_left].
  - exact Hin.
  - apply IH. apply step_calm; assumption.
Qed.

(** *** A set port is covered, while no thread exits on its own *)

Lemma search_started_alive (env : Z -> attempt) (candidates : list Z) :
  forall w, snd (search env candidates w) = Started ->
  thread_alive (fst (search env candidates w)) = true.
Proof.
  induction candidates as [|c rest IH]; intros w Hs; cbn [search] in *.
  - discriminate.
  - destruct (env c) as [| |exc|j].
    + apply IH. exact Hs.
    + cbn [fst]. unfold thread_alive. cbn. rewrite Nat.eqb_refl. reflexivity.
    + discriminate.
    + apply IH. exact Hs.
Qed.

Lemma start_search_covered (port : Z) (env : Z -> attempt) (w : World) :
  covered (fst (start_search port env w)).
Proof.
  destruct (start_search_fields port env w) as (Hlive & Hth & Hin & _ & Hport & _).
  set (w1 := with_svc _ w) in *.
  intro Hset. rewrite Hport in Hset. rewrite Hin.
  destruct (snd (search env (_candidate_ports port) w1)) as [| |e] eqn:Er.
  - left. unfold thread_alive. rewrite Hlive, Hth.
    apply (search_started_alive env (_candidate_ports port) w1 Er).
  - congruence.
  - right. rewrite search_in_progress. reflexivity.
Qed.

Lemma step_covered (w : World) (o : op) :
  steady_op o -> covered w -> covered (step w o).
Proof.
  intros Hsteady Hcov.
  destruct o as [port join env|join| | |t exc]; cbn [step]; [| | | |destruct Hsteady].
  - unfold start, start_call. destruct (thread_alive w) eqn:Ealive.
    + destruct (port_eqb (current_port (svc w)) port).
      * intros _. left. exact Ealive.
      * apply start_search_covered.
    + apply start_search_covered.
  - intro Hset. rewrite (proj1 (proj2 (stop_refs join w))) in Hset. congruence.
  - unfold pause. destruct (thread_alive w) eqn:Ealive; [|exact Hcov].
    intros _. left. exact Ealive.
  - unfold resume. destruct (thread_alive w) eqn:Ealive; [|exact Hcov].
    intros _. left. exact Ealive.
Qed.

Lemma run_covered (ops : list op) :
  Forall steady_op ops -> forall w, covered w -> covered (run ops w).
Proof.
  unfold run. induction 1 as [|o ops Ho Hrest IH]; intros w Hcov; cbn [fold_left].
  - exact Hcov.
  - apply IH. apply step_covered; assumption.
Qed.

(** *** One engine thread, when every join completes *)

Lemma busy_alive (w : World) : busy w -> thread_alive w = true.
Proof.
  intros (t & Hlive & Hth & _). apply thread_alive_iff.
  exists t. split; [exact Hth|]. rewrite Hlive. left. reflexivity.
Qed.

Lemma idle_dead (w : World) : idle w -> thread_alive w = false.
Proof. intros [_ Hth]. apply thread_alive_no_thread. exact Hth. Qed.

Lemma filter_out_only (t : nat) : filter (fun u => negb (Nat.eqb u t)) [t] = [].
Proof. cbn. rewrite Nat.eqb_refl. reflexivity. Qed.

Lemma _shutdown_proxy_locked_idle (j : join_outcome) (w : World) :
  clean_join j -> tidy w -> idle (_shutdown_proxy_locked j w).
Proof.
  intros Hj Hs. split; [|apply _shutdown_proxy_locked_refs].
  destruct Hs as [[Hlive Hth] | Hbusy].
  - unfold _shutdown_proxy_locked. rewrite Hth. exact Hlive.
  - pose proof (busy_alive w Hbusy) as Halive.
    destruct Hbusy as (t & Hlive & Hth & _).
    unfold _shutdown_proxy_locked. rewrite Hth, Halive.
    destruct j as [exc|]; [|destruct Hj].
    cbn [with_svc live].
    rewrite (proj2 (proj2 (proj2 (run_proxy_exit_refs t exc w)))), Hlive.
    apply filter_out_only.
Qed.

Lemma launch_busy (c : Z) (w : World) : idle w -> busy (launch c w).
Proof.
  intros [Hlive _]. exists (spawned w). cbn. rewrite Hlive.
  repeat split; try reflexivity. discriminate.
Qed.

Lemma search_tidy (env : Z -> attempt) (candidates : list Z) :
  (forall c, env c <> EngineDown TimedOut) ->
  forall w, idle w ->
  let r := search env candidates w in
  match snd r with
  | Started => busy (fst r)
  | _ => idle (fst r)
  end.
Proof.
  intro Hclean.
  induction candidates as [|c rest IH]; intros w Hidle; cbn [search].
  - exact Hidle.
  - destruct (env c) as [| |exc|j] eqn:Ec.
    + apply IH. exact Hidle.
    + cbn [fst snd]. destruct (launch_busy c w Hidle) as (t & Hl & Ht & Hp).
      exists t. repeat split; assumption.
    + cbn [fst snd]. split.
      * rewrite (proj2 (proj2 (proj2
                  (run_proxy_exit_refs (spawned w) exc (launch c w))))).
        destruct Hidle as [Hlive _]. cbn [launch live]. rewrite Hlive.
        apply filter_out_only.
      * apply run_proxy_exit_refs.
    + apply IH.
      assert (Hj : clean_join j).
      { destruct j as [exc|]; [exact I|]. exfalso. exact (Hclean c Ec). }
      apply (_shutdown_proxy_locked_idle j); [exact Hj|].
      right. apply launch_busy. exact Hidle.
Qed.

Lemma start_search_tidy (port : Z) (env : Z -> attempt) (w : World) :
  (forall c, env c <> EngineDown TimedOut) -> idle w ->
  tidy (fst (start_search port env w)).
Proof.
  intros Hclean Hidle.
  destruct (start_search_fields port env w) as (Hlive & Hth & _ & _ & Hport & _).
  set (w1 := with_svc _ w) in *.
  assert (Hidle1 : idle w1) by exact Hidle.
  pose proof (search_tidy env (_candidate_ports port) Hclean w1 Hidle1) as Hr.
  cbv zeta in Hr.
  destruct (snd (search env (_candidate_ports port) w1)) as [| |e].
  - right. destruct Hr as (t & Hl & Ht & Hp). exists t.
    rewrite Hlive, Hth, Hport. repeat split; assumption.
  - left. destruct Hr as [Hl Ht]. unfold idle.
    rewrite Hlive, Hth. split; assumption.
  - left. destruct Hr as [Hl Ht]. unfold idle.
    rewrite Hlive, Hth. split; assumption.
Qed.

Lemma step_tidy (w : World) (o : op) :
  clean_op o -> tidy w -> tidy (step w o).
Proof.
  intros Hclean Hs.
  destruct o as [port join env|join| | |t exc]; cbn [step].
  - destruct Hclean as [Hj Henv]. unfold start, start_call.
    destruct (thread_alive w) eqn:Ealive.
    + destruct (port_eqb (current_port (svc w)) port).
      * destruct Hs as [Hidle | Hbusy].
        -- rewrite (idle_dead w Hidle) in Ealive. discriminate.
        -- right. exact Hbusy.
      * apply start_search_tidy; [exact Henv|].
        apply _shutdown_proxy_locked_idle; assumption.
    + apply start_search_tidy; [exact Henv|].
      destruct Hs as [Hidle | Hbusy]; [exact Hidle|].
      rewrite (busy_alive w Hbusy) in Ealive. discriminate.
  - left. destruct (stop_refs join w) as (Hth & _ & _ & Hlive).
    unfold idle. rewrite Hth, Hlive. split; [|reflexivity].
    apply (_shutdown_proxy_locked_idle join); [exact Hclean|].
    exact Hs.
  - unfold pause. destruct (thread_alive w); exact Hs.
  - unfold resume. destruct (thread_alive w); exact Hs.
  - destruct (existsb (Nat.eqb t) (live w)) eqn:Et; [|exact Hs].
    left. destruct (run_proxy_exit_refs t exc w) as (Hth & _ & _ & Hlive).
    unfold idle. rewrite Hth, Hlive. split; [|reflexivity].
    destruct Hs as [[Hl _] | (u & Hl & _)]; rewrite Hl in *.
    + reflexivity.
    + cbn in Et. rewrite orb_false_r in Et. apply Nat.eqb_eq in Et. subst u.
      apply filter_out_only.
Qed.

Lemma run_tidy (ops : list op) :
  Forall clean_op ops -> forall w, tidy w -> tidy (run ops w).
Proof.
  unfold run. induction 1 as [|o ops Ho Hrest IH]; intros w Hs; cbn [fold_left].
  - exact Hs.
  - apply IH. apply step_tidy; assumption.
Qed.

(** C3 (as the code has it). After any run of [start], [stop], [pause],
    [resume] and engine exits from a fresh service, an engine thread that
    the service holds alive always has a non-null [current_port].  In a
    run where no engine thread exits on its own, [current_port] is never
    non-null with no engine thread alive and no start in progress.  In a
    run where every bounded join completes, at most one engine thread is
    alive and it is the one the service holds.  The in-progress flag is
    clear unless a [start] raised at its liveness check; so in a run
    without such a raise and without an engine exit, [current_port] is
    non-null exactly when the engine thread is alive. *)
Theorem lifecycle_invariant (ops : list op) :
  let w := run ops ProxyService_init in
  (thread_alive w = true -> current_port (svc w) <> None)
  /\ (Forall steady_op ops ->
      current_port (svc w) <> None ->
      thread_alive w = true \/ _start_in_progress (svc w) = true)
  /\ (Forall clean_op ops ->
      (List.length (live w) <= 1)%nat
      /\ forall t, In t (live w) ->
                   proxy_thread (svc w) = Some t /\ current_port (svc w) <> None)
  /\ (Forall calm_op ops -> _start_in_progress (svc w) = false)
  /\ (Forall steady_op ops -> Forall calm_op ops ->
      (current_port (svc w) <> None <-> thread_alive w = true)).
Proof.
  intro w.
  assert (Hheld0 : held_is_bound ProxyService_init) by (intros t Ht; discriminate).
  pose proof (run_held ops ProxyService_init Hheld0) as Hheld.
  fold w in Hheld.
  assert (Hbound : thread_alive w = true -> current_port (svc w) <> None).
  { intro Halive. apply thread_alive_iff in Halive.
    destruct Halive as (t & Ht & _). apply (Hheld t Ht). }
  assert (Hcov : Forall steady_op ops -> covered w).
  { intro Hsteady. apply run_covered; [exact Hsteady|].
    intro Hset. exfalso. apply Hset. reflexivity. }
  assert (Hflag : Forall calm_op ops -> _start_in_progress (svc w) = false).
  { intro Hcalm. apply run_calm; [exact Hcalm | reflexivity]. }
  split; [exact Hbound|]. split; [exact Hcov|]. split; [|split; [exact Hflag|]].
  - intro Hclean.
    assert (Hs : tidy w).
    { apply run_tidy; [exact Hclean|]. left. split; reflexivity. }
    destruct Hs as [[Hl _] | (t & Hl & Ht & Hp)]; rewrite Hl.
    + split; [cbn; lia | intros t []].
    + split; [cbn; lia|]. intros u [<-|[]]. split; [exact Ht | exact Hp].
  - intros Hsteady Hcalm. split; [|exact Hbound].
    intro Hset. destruct (Hcov Hsteady Hset) as [Halive | Hin]; [exact Halive|].
    rewrite (Hflag Hcalm) in Hin. discriminate.
Qed.

(** A start, a pause, then a restart on another port whose first candidate
    is occupied: one engine thread, bound to 9091. *)
Lemma lifecycle_invariant_witness :
  let ops := [ OpStart 8080 (Joined None) (fun _ => EngineUp);
               OpPause;
               OpStart 9090 (Joined None)
                 (fun c => if c =? 9090 then PortBusy else EngineUp) ] in
  (List.length (live (run ops ProxyService_init)) <= 1)%nat
  /\ (current_port (svc (run ops ProxyService_init)) <> None
      <-> thread_alive (run ops ProxyService_init) = true)
  /\ current_port (svc (run ops ProxyService_init)) = Some 9091.
Proof.
  intro ops.
  assert (Hclean : Forall clean_op ops).
  { repeat constructor; try discriminate.
    intro c. destruct (c =? 9090); discriminate. }
  assert (Hsteady : Forall steady_op ops) by (repeat constructor).
  assert (Hcalm : Forall calm_op ops).
  { repeat constructor; try discriminate.
    intros c exc. destruct (c =? 9090); discriminate. }
  destruct (lifecycle_invariant ops) as (_ & _ & Hone & _ & Hiff).
  split; [apply (proj1 (Hone Hclean))|].
  split; [apply (Hiff Hsteady Hcalm) | reflexivity].
Defined.

(** C3 fails as stated.  When a bounded join times out the old engine
    thread lives on: after a restart two engine threads are alive, and
    after [stop] a thread is alive while [current_port] is [None].  And
    when the engine thread leaves [run_proxy] on its own, [current_port]
    stays set with no thread alive and no start in progress. *)
Lemma lifecycle_invariant_counterexample :
  let up := OpStart 8080 TimedOut (fun _ => EngineUp) in
  let restarted := run [up; OpStart 9090 TimedOut (fun _ => EngineUp)] ProxyService_init in
  let stopped := run [up; OpStop TimedOut] ProxyService_init in
  let exited := run [up; OpEngineExit 0 None] ProxyService_init in
  (live restarted = [1%nat; 0%nat] /\ proxy_thread (svc restarted) = Some 1%nat)
  /\ (live stopped = [0%nat] /\ current_port (svc stopped) = None)
  /\ (current_port (svc exited) = Some 8080
      /\ thread_alive exited = false
      /\ live exited = []
      /\ _start_in_progress (svc exited) = false).
Proof.
  cbv zeta. repeat split; reflexivity.
Qed.

(** ** Pausing *)

(** C4 (as the code has it). With no engine thread alive [pause] changes
    nothing and queues nothing.  With the engine thread alive every call
    sets the paused flag and queues exactly one [paused] status, also when
    the flag was already set: two calls in a row leave the service paused,
    differ from one call only in the queue, and queue two statuses. *)
Theorem pause_events (w : World) :
  let e := StatusEvent (lit "paused") (lit "Paused") (current_port (svc w)) in
  (thread_alive w = false -> pause w = w)
  /\ (thread_alive w = true ->
      event_queue (svc (pause w)) = event_queue (svc w) ++ [e]
      /\ event_queue (svc (pause (pause w))) = event_queue (svc (pause w)) ++ [e]
      /\ paused (state (svc (pause w))) = true
      /\ state (svc (pause (pause w))) = state (svc (pause w))
      /\ thread_alive (pause (pause w)) = true
      /\ current_status_payload (pause (pause w)) = e
      /\ current_status_payload (pause w) = e
      /\ capture_enabled (state (svc (pause w))) = capture_enabled (state (svc w))
      /\ current_port (svc (pause (pause w))) = current_port (svc w)
      /\ live (pause (pause w)) = live w).
Proof.
  intro e. split.
  - intro Hdead. unfold pause. rewrite Hdead. reflexivity.
  - intro Halive.
    assert (Hstep : forall v, thread_alive v = true ->
              thread_alive (pause v) = true
              /\ event_queue (svc (pause v))
                 = event_queue (svc v)
                   ++ [StatusEvent (lit "paused") (lit "Paused") (current_port (svc v))]
              /\ state (svc (pause v))
                 = {| capture_enabled := capture_enabled (state (svc v));
                      paused := true |}
              /\ current_port (svc (pause v)) = current_port (svc v)
              /\ live (pause v) = live v).
    { intros v Hv. unfold pause. rewrite Hv. cbn [negb].
      repeat split; try reflexivity. exact Hv. }
    destruct (Hstep w Halive) as (Ha1 & Hq1 & Hs1 & Hp1 & Hl1).
    destruct (Hstep (pause w) Ha1) as (Ha2 & Hq2 & Hs2 & Hp2 & Hl2).
    assert (Hpay : forall v, thread_alive v = true -> paused (state (svc v)) = true ->
                   current_status_payload v
                   = StatusEvent (lit "paused") (lit "Paused") (current_port (svc v))).
    { intros v Hv Hp. unfold current_status_payload. rewrite Hv, Hp. reflexivity. }
    subst e. rewrite Hq2, Hq1, Hs2, Hs1, Ha2, Hp2, Hp1, Hl2, Hl1.
    cbn [paused capture_enabled].
    repeat split; try reflexivity.
    + rewrite Hpay by (try exact Ha2; rewrite Hs2; reflexivity).
      rewrite Hp2, Hp1. reflexivity.
    + rewrite Hpay by (try exact Ha1; rewrite Hs1; reflexivity).
      rewrite Hp1. reflexivity.
Qed.

(** A service started on 8080 and paused twice. *)
Lemma pause_events_witness :
  let up := start 8080 TimedOut (fun _ => EngineUp) ProxyService_init in
  event_queue (svc (pause (pause up)))
  = [ StatusEvent (lit "running") (lit "Proxy Running on 127.0.0.1:8080") (Some 8080);
      StatusEvent (lit "paused") (lit "Paused") (Some 8080);
      StatusEvent (lit "paused") (lit "Paused") (Some 8080) ]
  /\ pause ProxyService_init = ProxyService_init.
Proof.
  intro up.
  destruct (pause_events up) as [_ Hup].
  destruct (Hup eq_refl) as (Hq1 & Hq2 & _).
  destruct (pause_events ProxyService_init) as [Hidle _].
  split; [rewrite Hq2, Hq1; reflexivity | apply Hidle; reflexivity].
Defined.

(** C4 fails as stated: a [pause] on a service that is already paused
    changes none of its fields but the queue, yet queues one more [paused]
    status. *)
Lemma pause_events_counterexample :
  let w := pause (start 8080 TimedOut (fun _ => EngineUp) ProxyService_init) in
  paused (state (svc w)) = true
  /\ thread_alive w = true
  /\ state (svc (pause w)) = state (svc w)
  /\ current_status_payload (pause w) = current_status_payload w
  /\ event_queue (svc (pause w))
     = event_queue (svc w) ++ [StatusEvent (lit "paused") (lit "Paused") (Some 8080)]
  /\ event_queue (svc (pause w)) <> event_queue (svc w).
Proof.
  cbv zeta. repeat split; try reflexivity.
  vm_compute. discriminate.
Qed.

(** * Further properties of the body functions *)

(** ** [_truncate_bytes] *)

(** X1. For a non-negative limit, [_truncate_bytes] returns the first
    [limit] bytes of the body: a prefix of it, of length
    [min(len(data), limit)], equal to the body when that is short enough;
    truncating again changes nothing, and [None] gives [b""]. *)
Theorem truncate_is_capped_prefix (d : bytes) (limit : Z) :
  0 <= limit ->
  let t := _truncate_bytes (Some d) limit in
  len t = Z.min (len d) limit
  /\ t = firstn (Z.to_nat limit) d
  /\ (exists rest, d = t ++ rest)
  /\ _truncate_bytes (Some t) limit = t
  /\ (len d <= limit -> t = d)
  /\ _truncate_bytes None limit = [].
Proof.
  intros Hlimit t.
  assert (Ht : t = firstn (Z.to_nat limit) d).
  { subst t. unfold _truncate_bytes, slice_to.
    destruct (Z.leb_spec (len d) limit) as [Hle|Hgt].
    - symmetry. apply firstn_all2. unfold len in Hle. lia.
    - destruct (Z.ltb_spec limit 0); [lia | reflexivity]. }
  assert (Hlen : len t = Z.min (len d) limit).
  { rewrite Ht, len_firstn. lia. }
  split; [exact Hlen|]. split; [exact Ht|]. split.
  { exists (skipn (Z.to_nat limit) d). rewrite Ht. symmetry. apply firstn_skipn. }
  split.
  { unfold _truncate_bytes at 1.
    destruct (Z.leb_spec (len t) limit) as [Hle|Hgt]; [reflexivity | lia]. }
  split; [|reflexivity].
  intro Hle. subst t. unfold _truncate_bytes.
  destruct (Z.leb_spec (len d) limit); [reflexivity | lia].
Qed.

(** Eight bytes cut to five. *)
Lemma truncate_is_capped_prefix_witness :
  _truncate_bytes (Some [1; 2; 3; 4; 5; 6; 7; 8]) 5 = [1; 2; 3; 4; 5].
Proof.
  destruct (truncate_is_capped_prefix [1; 2; 3; 4; 5; 6; 7; 8] 5 ltac:(lia))
    as (_ & H & _).
  exact H.
Defined.

(** ** [_safe_decode] *)

Lemma utf8_strict_raises (data : bytes) :
  forall st e, utf8_strict_from st data = Raise e -> e = UnicodeDecodeError.
Proof.
  induction data as [|b rest IH]; intros st e H; cbn [utf8_strict_from] in H.
  - destruct st; [discriminate | congruence].
  - destruct (match st with
              | Start => Some (utf8_lead b)
              | Pending need acc lo hi => utf8_cont need acc lo hi b
              end) as [[c|st'|]|].
    + destruct (utf8_strict_from Start rest) eqn:E; cbn [bind] in H;
        [discriminate|]. injection H as <-. apply (IH Start). exact E.
    + apply (IH st'). exact H.
    + congruence.
    + congruence.
Qed.

Lemma utf8_replace_marks_failure (data : bytes) :
  forall st e, utf8_strict_from st data = Raise e ->
  In REPLACEMENT (utf8_replace_from st data).
Proof.
  induction data as [|b rest IH]; intros st e H;
    cbn [utf8_strict_from utf8_replace_from] in *.
  - destruct st; [discriminate | left; reflexivity].
  - destruct st as [|need acc lo hi].
    + destruct (utf8_lead b) as [c|st'|].
      * destruct (utf8_strict_from Start rest) eqn:E; cbn [bind] in H;
          [discriminate|]. right. apply (IH Start e0). exact E.
      * apply (IH st' e). exact H.
      * left. reflexivity.
    + destruct (utf8_cont need acc lo hi b) as [[c|st'|]|].
      * destruct (utf8_strict_from Start rest) eqn:E; cbn [bind] in H;
          [discriminate|]. right. apply (IH Start e0). exact E.
      * apply (IH st' e). exact H.
      * left. reflexivity.
      * left. reflexivity.
Qed.

(** X2. [_safe_decode] either reports no issue, and its text is the strict
    UTF-8 decoding of the data (the empty string for empty data); or it
    reports an issue, and then the data is non-empty, strict decoding
    raises [UnicodeDecodeError], and the text is the lossy decoding, which
    contains at least one U+FFFD. *)
Theorem safe_decode_cases (data : bytes) :
  let r := _safe_decode data in
  (snd r = false /\ utf8_decode data = Ok (fst r))
  \/ (snd r = true
      /\ data <> []
      /\ utf8_decode data = Raise UnicodeDecodeError
      /\ fst r = utf8_decode_replace data
      /\ In REPLACEMENT (fst r)).
Proof.
  intro r. subst r. unfold _safe_decode.
  destruct data as [|b rest].
  - left. split; reflexivity.
  - destruct (utf8_decode (b :: rest)) as [text|e] eqn:E; cbn [fst snd].
    + left. split; reflexivity.
    + right. pose proof (utf8_strict_raises _ _ _ E) as ->.
      repeat split; try reflexivity; try discriminate.
      apply (utf8_replace_marks_failure _ Start _ E).
Qed.

Lemma utf8_encode_char_bytes (c : Z) :
  scalar c = true -> Forall (fun b => 0 <= b < 256) (utf8_encode_char c).
Proof.
  unfold scalar. intro Hs.
  apply andb_prop in Hs. destruct Hs as [Hs _].
  apply andb_prop in Hs. destruct Hs as [H0 Hmax].
  apply Z.leb_le in H0. apply Z.ltb_lt in Hmax.
  unfold utf8_encode_char.
  destruct (Z.ltb_spec c 0x80); [repeat constructor; lia|].
  destruct (Z.ltb_spec c 0x800);
    [repeat constructor; Z.div_mod_to_equations; lia|].
  destruct (Z.ltb_spec c 0x10000);
    repeat constructor; Z.div_mod_to_equations; lia.
Qed.

(** X3. Encoding a text of Unicode scalar values as UTF-8 yields octets,
    and [_safe_decode] of those octets gives the text back with no decode
    issue; so the encoding of such texts is injective. *)
Theorem safe_decode_round_trip (text : pystr) :
  forallb scalar text = true ->
  Forall (fun b => 0 <= b < 256) (utf8_encode text)
  /\ _safe_decode (utf8_encode text) = (text, false)
  /\ (forall other, forallb scalar other = true ->
        utf8_encode other = utf8_encode text -> other = text).
Proof.
  intro Hs. split; [|split].
  - unfold utf8_encode. induction text as [|c text IH]; cbn [flat_map].
    + constructor.
    + cbn [forallb] in Hs. apply andb_prop in Hs. destruct Hs as [Hc Ht].
      apply Forall_app. split; [apply utf8_encode_char_bytes; exact Hc|].
      apply IH. exact Ht.
  - apply _safe_decode_encoded. exact Hs.
  - intros other Ho E.
    pose proof (_safe_decode_encoded other Ho) as H1.
    pose proof (_safe_decode_encoded text Hs) as H2.
    rewrite E in H1. congruence.
Qed.

(** The text "aé€😀": one, two, three and four bytes per character. *)
Lemma safe_decode_round_trip_witness :
  utf8_encode [97; 233; 8364; 128512]
  = [97; 0xC3; 0xA9; 0xE2; 0x82; 0xAC; 0xF0; 0x9F; 0x98; 0x80]
  /\ _safe_decode [97; 0xC3; 0xA9; 0xE2; 0x82; 0xAC; 0xF0; 0x9F; 0x98; 0x80]
     = ([97; 233; 8364; 128512], false).
Proof.
  destruct (safe_decode_round_trip [97; 233; 8364; 128512] eq_refl)
    as (_ & H & _).
  split; [reflexivity | exact H].
Defined.

(** ** [_get_header_value] *)

Lemma str_eqb_eq (a b : pystr) : str_eqb a b = true <-> a = b.
Proof.
  revert b. induction a as [|x a IH]; intros [|y b]; cbn [str_eqb];
    try (split; [discriminate | congruence]); [split; reflexivity|].
  rewrite andb_true_iff, Z.eqb_eq, IH. split.
  - intros [-> ->]. reflexivity.
  - intro E. injection E as -> ->. split; reflexivity.
Qed.

(** X4. Header lookup is case-insensitive and the first match wins: when
    no name before a pair lower-cases to the lower-cased target and the
    pair's name does, the lookup returns that pair's value, whatever
    follows (duplicates included).  In general the result is either the
    empty string or the value of some pair whose name matches. *)
Theorem header_first_match_wins (rt : Runtime)
    (before : list (pystr * pystr)) (k v : pystr) (after : list (pystr * pystr))
    (name : pystr) :
  (forall k' v', In (k', v') before -> str_lower k' <> str_lower name) ->
  str_lower k = str_lower name ->
  _get_header_value (Some (before ++ (k, v) :: after)) name = v
  /\ (forall items,
        _get_header_value (Some items) name = []
        \/ exists k0, In (k0, _get_header_value (Some items) name) items
                      /\ str_lower k0 = str_lower name).
Proof.
  intros Hbefore Hk. split.
  - assert (Hfirst : first_match (str_lower name) (before ++ (k, v) :: after) = v).
    { induction before as [|[k' v'] before IH]; cbn [app first_match].
      - apply str_eqb_eq in Hk. rewrite Hk. reflexivity.
      - destruct (str_eqb (str_lower k') (str_lower name)) eqn:E.
        + apply str_eqb_eq in E. exfalso.
          apply (Hbefore k' v'); [left; reflexivity | exact E].
        + apply IH. intros k0 v0 Hin. apply (Hbefore k0 v0). right. exact Hin. }
    unfold _get_header_value.
    destruct (before ++ (k, v) :: after) eqn:E; [|exact Hfirst].
    destruct before; discriminate.
  - intro items.
    assert (Hany : first_match (str_lower name) items = []
                   \/ exists k0, In (k0, first_match (str_lower name) items) items
                                 /\ str_lower k0 = str_lower name).
    { induction items as [|[k0 v0] items IH]; cbn [first_match].
      - left. reflexivity.
      - destruct (str_eqb (str_lower k0) (str_lower name)) eqn:E.
        + right. exists k0. split; [left; reflexivity | apply str_eqb_eq; exact E].
        + destruct IH as [IH | (k1 & Hin & Hk1)]; [left; exact IH|].
          right. exists k1. split; [right; exact Hin | exact Hk1]. }
    unfold _get_header_value. destruct items as [|item items]; [left; reflexivity|].
    exact Hany.
Qed.

(** Two [Content-Type] headers in different case: the first one answers. *)
Lemma header_first_match_witness :
  @_get_header_value example_runtime
     (Some [(lit "Host", lit "example.org");
            (lit "CONTENT-TYPE", lit "text/html");
            (lit "content-type", lit "image/png")])
     (lit "Content-Type")
  = lit "text/html".
Proof.
  apply (header_first_match_wins example_runtime
           [(lit "Host", lit "example.org")]
           (lit "CONTENT-TYPE") (lit "text/html")
           [(lit "content-type", lit "image/png")] (lit "Content-Type")).
  - intros k' v' [E|[]]. inversion E; subst. vm_compute. discriminate.
  - reflexivity.
Defined.

(** ** [_looks_binary_from_text] *)

(** X5. The heuristic, computed with floating-point division and
    comparison, decides the exact inequality: a text looks binary exactly
    when, among its first 2000 characters, the control characters (other
    than tab, newline, carriage return) and U+FFFD number more than 8 in
    100. *)
Theorem looks_binary_iff (text : pystr) :
  let sample := slice_to text 2000 in
  _looks_binary_from_text text = true
  <-> 8 * len sample
      < 100 * (count_if is_control sample + count_if is_replacement sample).
Proof.
  intro sample. rewrite _looks_binary_from_text_exact. fold sample.
  unfold exact_exceeds. apply Z.ltb_lt.
Qed.

Lemma slice_to_again (text : pystr) :
  slice_to (slice_to text 2000) 2000 = slice_to text 2000.
Proof.
  unfold slice_to. change (2000 <? 0) with false. cbv iota.
  rewrite firstn_firstn. rewrite Nat.min_id. reflexivity.
Qed.

Lemma count_if_none (p : Z -> bool) (s : pystr) :
  (forall c, In c s -> p c = false) -> count_if p s = 0.
Proof.
  intro Hnone. unfold count_if.
  induction s as [|c s IH]; cbn [filter]; [reflexivity|].
  rewrite (Hnone c) by (left; reflexivity).
  apply IH. intros c' Hc'. apply Hnone. right. exact Hc'.
Qed.

(** X6. Only the first 2000 characters of a text enter the heuristic, and
    a text whose first 2000 characters hold no control character (tab,
    newline and carriage return apart) and no U+FFFD never looks binary,
    however long it is. *)
Theorem looks_binary_sample_only (text : pystr) :
  _looks_binary_from_text text = _looks_binary_from_text (slice_to text 2000)
  /\ (forall tail,
        len text = 2000 ->
        _looks_binary_from_text (text ++ tail) = _looks_binary_from_text text)
  /\ ((forall c, In c (slice_to text 2000) ->
                 is_control c = false /\ is_replacement c = false) ->
      _looks_binary_from_text text = false).
Proof.
  split; [|split].
  - rewrite (_looks_binary_from_text_exact text).
    rewrite (_looks_binary_from_text_exact (slice_to text 2000)).
    cbv zeta. rewrite slice_to_again. reflexivity.
  - intros tail Hlen.
    rewrite (_looks_binary_from_text_exact (text ++ tail)).
    rewrite (_looks_binary_from_text_exact text). cbv zeta.
    assert (Hcut : forall s : pystr, slice_to s 2000 = firstn (Z.to_nat 2000) s)
      by reflexivity.
    rewrite !Hcut.
    assert (Hn : List.length text = Z.to_nat 2000) by (unfold len in Hlen; lia).
    rewrite <- Hn, firstn_app, firstn_all, Nat.sub_diag.
    cbn [firstn]. rewrite app_nil_r. reflexivity.
  - intro Hclean. rewrite _looks_binary_from_text_exact. cbv zeta.
    rewrite !count_if_none by (intros c Hc; apply Hclean; exact Hc).
    unfold exact_exceeds. apply Z.ltb_ge.
    pose proof (len_nonneg (slice_to text 2000)). lia.
Qed.

(** A line of text with a tab and a newline does not look binary. *)
Lemma looks_binary_sample_only_witness :
  _looks_binary_from_text (lit "name" ++ [9] ++ lit "value" ++ [10]) = false.
Proof.
  destruct (looks_binary_sample_only (lit "name" ++ [9] ++ lit "value" ++ [10]))
    as (_ & _ & H).
  apply H. intros c Hc. vm_compute in Hc.
  repeat (destruct Hc as [<-|Hc]; [split; reflexivity|]).
  destruct Hc.
Defined.

(** ** [_decode_for_display] *)

(** X7. A UTF-8 text sent without gzip, deflate or br in its
    content-encoding is shown as it is, provided it does not trip the
    binary heuristic and its declared content type is not binary-only. *)
Theorem plain_text_is_shown (rt : Runtime) (headers : Headers) (text : pystr) :
  let content_type := str_lower (_get_header_value headers (lit "content-type")) in
  let content_encoding := str_lower (_get_header_value headers (lit "content-encoding")) in
  forallb scalar text = true ->
  str_in (lit "gzip") content_encoding = false ->
  str_in (lit "deflate") content_encoding = false ->
  str_in (lit "br") content_encoding = false ->
  any_hint_in BINARY_CONTENT_HINTS (str_lower content_type)
    && negb (any_hint_in TEXTUAL_CONTENT_HINTS (str_lower content_type)) = false ->
  _looks_binary_from_text text = false ->
  _decode_for_display (utf8_encode text) headers = Ok text.
Proof.
  intros content_type content_encoding Hs Hg Hd Hb Hct Hlooks.
  destruct (utf8_encode text) as [|b rest] eqn:E.
  - destruct text as [|c text]; [reflexivity|].
    unfold utf8_encode in E. cbn [flat_map] in E.
    apply app_eq_nil in E. destruct E as [E _].
    destruct (utf8_encode_char_nonempty c E).
  - rewrite <- E.
    rewrite _decode_for_display_nonempty by (rewrite E; discriminate).
    unfold shown. fold content_type. fold content_encoding.
    unfold undo_spec. rewrite Hg, Hd, Hb.
    rewrite _safe_decode_encoded by exact Hs. cbn [fst snd andb].
    rewrite Hct, Hlooks. reflexivity.
Qed.

(** A JSON body with no content-encoding header. *)
Lemma plain_text_is_shown_witness :
  @_decode_for_display example_runtime (utf8_encode (lit "{}"))
     (Some [(lit "Content-Type", lit "application/json")])
  = Ok (lit "{}").
Proof.
  apply (plain_text_is_shown example_runtime
           (Some [(lit "Content-Type", lit "application/json")]) (lit "{}"));
    reflexivity.
Defined.

(** X8. A declared textual content type overrides both a binary hint and a
    decoding issue: the body is shown as decoded (lossily if need be), and
    only the heuristic on the decoded text can still turn it into the
    placeholder. *)
Theorem textual_type_overrides (rt : Runtime) (data : bytes) (headers : Headers)
    (decoded_bytes : bytes) (text : pystr) (had_decode_issue : bool) :
  let content_type := str_lower (_get_header_value headers (lit "content-type")) in
  let content_encoding := str_lower (_get_header_value headers (lit "content-encoding")) in
  data <> [] ->
  any_hint_in TEXTUAL_CONTENT_HINTS (str_lower content_type) = true ->
  undo_content_encoding data content_encoding = Ok decoded_bytes ->
  _safe_decode decoded_bytes = (text, had_decode_issue) ->
  _decode_for_display data headers
  = Ok (if _looks_binary_from_text text
        then placeholder (str_or content_type (lit "binary/unknown")) (len data)
        else text).
Proof.
  intros content_type content_encoding Hne Htxt Hundo Hdec.
  rewrite _decode_for_display_nonempty by exact Hne.
  unfold shown. fold content_type. fold content_encoding.
  rewrite undo_content_encoding_ok in Hundo. injection Hundo as Hundo.
  rewrite Hundo, Hdec, Htxt. cbn [fst snd negb].
  rewrite !andb_false_r. reflexivity.
Qed.

(** A [text/plain] body holding one stray byte 0xFF among text: shown with
    U+FFFD in its place. *)
Lemma textual_type_overrides_witness :
  @_decode_for_display example_runtime (lit "price: " ++ [0xFF] ++ lit "12 GBP, paid")
     (Some [(lit "Content-Type", lit "text/plain")])
  = Ok (lit "price: " ++ [REPLACEMENT] ++ lit "12 GBP, paid").
Proof.
  rewrite (textual_type_overrides example_runtime
             (lit "price: " ++ [0xFF] ++ lit "12 GBP, paid")
             (Some [(lit "Content-Type", lit "text/plain")])
             (lit "price: " ++ [0xFF] ++ lit "12 GBP, paid")
             (lit "price: " ++ [REPLACEMENT] ++ lit "12 GBP, paid") true
             ltac:(discriminate) eq_refl eq_refl eq_refl).
  vm_compute. reflexivity.
Defined.

(** * Further properties of the collector *)

(** X11. What the lifecycle does to capture: after [stop], and after
    [pause] on a service whose engine thread is alive, both collector
    callbacks return without queuing anything, whatever the flow; after
    [resume] on such a service capture is effective again if it was
    enabled. *)
Theorem paused_or_stopped_captures_nothing (rt : Runtime)
    (w : World) (join : join_outcome) (queue : list event) (flow : HTTPFlow) :
  FlowCollector_response (state (svc (stop join w))) queue flow = Ok queue
  /\ FlowCollector_error (state (svc (stop join w))) queue flow = Ok queue
  /\ (thread_alive w = true ->
      FlowCollector_response (state (svc (pause w))) queue flow = Ok queue
      /\ FlowCollector_error (state (svc (pause w))) queue flow = Ok queue
      /\ should_capture (state (svc (resume (pause w))))
         = capture_enabled (state (svc w))).
Proof.
  assert (Hgate : forall st, should_capture st = false ->
            FlowCollector_response st queue flow = Ok queue
            /\ FlowCollector_error st queue flow = Ok queue).
  { intros st Hst. unfold FlowCollector_response, FlowCollector_error.
    rewrite Hst. split; reflexivity. }
  assert (Hstop : should_capture (state (svc (stop join w))) = false).
  { unfold stop.
    set (w1 := with_svc (set_state _) w).
    assert (Hst : forall v, state (svc (_shutdown_proxy_locked join v))
                            = state (svc v)).
    { intro v. unfold _shutdown_proxy_locked.
      destruct (proxy_thread (svc v)) as [t|]; [|reflexivity].
      destruct join as [exc|]; [|reflexivity].
      destruct (thread_alive v); [|reflexivity].
      unfold run_proxy_exit. destruct exc as [m|]; [|reflexivity].
      cbn. destruct (_start_in_progress (svc v)); reflexivity. }
    cbn [with_svc svc set_current_port _status put state].
    rewrite Hst. reflexivity. }
  split; [apply Hgate; exact Hstop|].
  split; [apply Hgate; exact Hstop|].
  intro Halive.
  assert (Hp : thread_alive (pause w) = true /\
               state (svc (pause w))
               = {| capture_enabled := capture_enabled (state (svc w));
                    paused := true |}).
  { unfold pause. rewrite Halive. split; [exact Halive | reflexivity]. }
  destruct Hp as [Hpa Hps].
  assert (Hpaused : should_capture (state (svc (pause w))) = false).
  { rewrite Hps. unfold should_capture. cbn. apply andb_false_r. }
  split; [apply Hgate; exact Hpaused|].
  split; [apply Hgate; exact Hpaused|].
  unfold resume. rewrite Hpa. cbn [negb with_svc svc _status put set_state state].
  rewrite Hps. unfold should_capture. cbn. apply andb_true_r.
Qed.

(** A running service, paused: a completed exchange is not recorded. *)
Lemma paused_captures_nothing_witness :
  let up := start 8080 TimedOut (fun _ => EngineUp) ProxyService_init in
  let flow := {| flow_request := {| req_content := None; req_headers := Some [] |};
                 flow_response := Some {| resp_status_code := 200;
                                          resp_content := Some (lit "ok");
                                          resp_headers := Some [] |};
                 flow_error := None |} in
  @FlowCollector_response example_runtime (state (svc (pause up))) [] flow = Ok []
  /\ should_capture (state (svc (resume (pause up)))) = true.
Proof.
  intros up flow.
  destruct (paused_or_stopped_captures_nothing example_runtime up TimedOut [] flow)
    as (_ & _ & H).
  destruct (H eq_refl) as (Hr & _ & Hs).
  split; [exact Hr | rewrite Hs; reflexivity].
Defined.

(** * Further properties of the lifecycle *)

(** ** The candidate ports *)

Lemma NoDup_shifted (port : Z) (l : list nat) :
  NoDup l -> NoDup (map (fun i => port + Z.of_nat i) l).
Proof.
  induction 1 as [|i l Hnot Hnd IH]; cbn [map]; constructor; [|exact IH].
  rewrite in_map_iff. intros (j & E & Hj).
  assert (j = i) by lia. subst j. exact (Hnot Hj).
Qed.

Lemma _candidate_ports_In (port c : Z) :
  In c (_candidate_ports port) <-> port <= c <= port + 20.
Proof.
  rewrite _candidate_ports_spec, in_map_iff. split.
  - intros (i & <- & Hi). apply in_seq in Hi. lia.
  - intro Hc. exists (Z.to_nat (c - port)). split; [lia|].
    apply in_seq. lia.
Qed.

(** X12. [_candidate_ports(P)] yields the 21 ports [P], [P+1], ...,
    [P+20], each once, in increasing order. *)
Theorem candidate_ports_range (port : Z) :
  List.length (_candidate_ports port) = 21%nat
  /\ (forall c, In c (_candidate_ports port) <-> port <= c <= port + 20)
  /\ NoDup (_candidate_ports port)
  /\ (forall i, (i < 21)%nat ->
        nth i (_candidate_ports port) 0 = port + Z.of_nat i).
Proof.
  split; [rewrite _candidate_ports_spec; reflexivity|].
  split; [apply _candidate_ports_In|].
  rewrite _candidate_ports_spec. split.
  - apply NoDup_shifted. apply seq_NoDup.
  - intros i Hi.
    rewrite (nth_indep _ 0 (port + Z.of_nat 0))
      by (rewrite length_map, length_seq; exact Hi).
    rewrite (map_nth (fun i => port + Z.of_nat i)).
    rewrite seq_nth by exact Hi. reflexivity.
Qed.

(** ** A successful start *)

Lemma search_finds (env : Z -> attempt) (c : Z) (later : list Z)
    (earlier : list Z) :
  forall w,
  (forall x, In x earlier -> occupied_or_unreachable (env x)) ->
  env c = EngineUp ->
  _start_in_progress (svc w) = true ->
  let r := search env (earlier ++ c :: later) w in
  snd r = Started
  /\ current_port (svc (fst r)) = Some c
  /\ thread_alive (fst r) = true
  /\ state (svc (fst r)) = state (svc w)
  /\ event_queue (svc (fst r))
     = event_queue (svc w)
       ++ [StatusEvent (lit "running") (_running_message (Some c)) (Some c)].
Proof.
  induction earlier as [|x earlier IH]; intros w Hdown Hup Hin;
    cbn [app search].
  - rewrite Hup. cbn [fst snd].
    repeat split; try reflexivity.
    unfold thread_alive. cbn. rewrite Nat.eqb_refl. reflexivity.
  - assert (Hrest : forall y, In y earlier -> occupied_or_unreachable (env y))
      by (intros y Hy; apply Hdown; right; exact Hy).
    pose proof (Hdown x (or_introl eq_refl)) as Hx.
    destruct (env x) as [| |exc|j] eqn:Ex; try (destruct Hx).
    + apply IH; assumption.
    + destruct (attempt_down j x w Hin) as (Hq & Hst & Hin' & _ & _).
      destruct (IH (_shutdown_proxy_locked j (launch x w)) Hrest Hup Hin')
        as (Hs & Hp & Ha & Hst' & Hq').
      cbv zeta. rewrite Hs, Hp, Ha, Hst', Hq', Hst, Hq.
      repeat split; reflexivity.
Qed.

(** X13. When [start(P)] reaches its search and [c] is the first candidate
    that comes up (every earlier one being occupied or not reachable in
    time), the call returns with the service bound to [c], its engine
    thread alive, capture enabled and not paused, no start in progress,
    and the search has queued exactly one event: a [running] status for
    port [c].  Failed attempts and their exceptions queue nothing. *)
Theorem start_binds_first_free (port : Z) (join : join_outcome)
    (env : Z -> attempt) (w : World) (earlier : list Z) (c : Z) (later : list Z) :
  thread_alive w && port_eqb (current_port (svc w)) port = false ->
  _candidate_ports port = earlier ++ c :: later ->
  (forall x, In x earlier -> occupied_or_unreachable (env x)) ->
  env c = EngineUp ->
  let w' := start port join env w in
  start_raises port join env w = None
  /\ current_port (svc w') = Some c
  /\ port <= c <= port + 20
  /\ thread_alive w' = true
  /\ state (svc w') = {| capture_enabled := true; paused := false |}
  /\ _start_in_progress (svc w') = false
  /\ current_status_payload w'
     = StatusEvent (lit "running") (_running_message (Some c)) (Some c)
  /\ event_queue (svc w')
     = event_queue (svc (before_search join w))
       ++ [StatusEvent (lit "running") (_running_message (Some c)) (Some c)].
Proof.
  intros Hreach Hsplit Hdown Hup w'. subst w'.
  unfold start, start_raises.
  destruct (start_reaches_search port join env w Hreach) as [-> _].
  destruct (start_search_fields port env (before_search join w))
    as (Hlive & Hth & Hin & Hst & Hport & Hq & Hexn).
  set (w1 := with_svc _ (before_search join w)) in *.
  rewrite Hsplit in *.
  destruct (search_finds env c later earlier w1 Hdown Hup eq_refl)
    as (Hs & Hp & Ha & Hst' & Hq').
  rewrite Hs in Hport, Hq, Hin, Hexn. rewrite app_nil_r in Hq.
  assert (Halive : thread_alive (fst (start_search port env (before_search join w)))
                   = true).
  { unfold thread_alive in *. rewrite Hlive, Hth. exact Ha. }
  assert (Hstate : state (svc (fst (start_search port env (before_search join w))))
                   = {| capture_enabled := true; paused := false |}).
  { rewrite Hst, Hst'. reflexivity. }
  split; [exact Hexn|].
  split; [rewrite Hport; exact Hp|].
  split.
  { apply _candidate_ports_In.
    rewrite Hsplit. apply in_or_app. right. left. reflexivity. }
  split; [exact Halive|]. split; [exact Hstate|]. split; [exact Hin|].
  split.
  - unfold current_status_payload. rewrite Halive, Hstate, Hport, Hp. reflexivity.
  - rewrite Hq, Hq'. reflexivity.
Qed.

(** Ports 8080 and 8081 occupied, 8082 free: the service binds 8082. *)
Lemma start_binds_first_free_witness :
  let env := fun c => if c <? 8082 then PortBusy else EngineUp in
  let w' := start 8080 TimedOut env ProxyService_init in
  current_port (svc w') = Some 8082
  /\ event_queue (svc w')
     = [StatusEvent (lit "running") (lit "Proxy Running on 127.0.0.1:8082")
          (Some 8082)].
Proof.
  intros env w'.
  destruct (start_binds_first_free 8080 TimedOut env ProxyService_init
              [8080; 8081] 8082 (range 8083 8101) eq_refl eq_refl)
    as (_ & Hport & _ & _ & _ & _ & _ & Hq).
  - intros x [<-|[<-|[]]]; exact I.
  - reflexivity.
  - split; [exact Hport | exact Hq].
Defined.

Lemma search_gone (env : Z -> attempt) (c : Z) (exc : option pystr)
    (later : list Z) (earlier : list Z) :
  forall w,
  (forall x, In x earlier -> occupied_or_unreachable (env x)) ->
  env c = EngineGone exc ->
  _start_in_progress (svc w) = true ->
  thread_alive w = false ->
  let r := search env (earlier ++ c :: later) w in
  snd r = Raised AttributeError
  /\ current_port (svc (fst r)) = Some c
  /\ proxy_thread (svc (fst r)) = None
  /\ proxy_master (svc (fst r)) = None
  /\ proxy_loop (svc (fst r)) = None
  /\ state (svc (fst r)) = state (svc w)
  /\ _start_in_progress (svc (fst r)) = true
  /\ event_queue (svc (fst r)) = event_queue (svc w)
  /\ _last_start_error (svc (fst r))
     = match exc with
       | Some message => message
       | None => last_exception env earlier (_last_start_error (svc w))
       end.
Proof.
  induction earlier as [|x earlier IH]; intros w Hdown Hgone Hin Hdead;
    cbn [app search last_exception].
  - rewrite Hgone. cbn [fst snd].
    destruct (attempt_gone exc c w Hin)
      as (Hq & Hst & Hin' & Hth & Hm & Hl & Hp & Herr).
    repeat split; assumption || reflexivity.
  - assert (Hrest : forall y, In y earlier -> occupied_or_unreachable (env y))
      by (intros y Hy; apply Hdown; right; exact Hy).
    pose proof (Hdown x (or_introl eq_refl)) as Hx.
    destruct (env x) as [| |exc'|j] eqn:Ex; try (destruct Hx).
    + apply IH; assumption.
    + destruct (attempt_down j x w Hin) as (Hq & Hst & Hin' & Hth & Herr).
      destruct (IH (_shutdown_proxy_locked j (launch x w)) Hrest Hgone Hin'
                  (thread_alive_no_thread _ Hth))
        as (Hs & Hp & Ht & Hm & Hl & Hst' & Hin'' & Hq' & He').
      cbv zeta. rewrite Hs, Hp, Ht, Hm, Hl, Hst', Hin'', Hq', He', Hq, Hst, Herr.
      repeat split; try reflexivity.
      destruct exc; [reflexivity|]. destruct j as [[message|]|]; reflexivity.
Qed.

(** X21. When [start(P)] reaches its search and the first candidate that
    is neither occupied nor unreachable is a reachable port whose engine
    thread has already left [run_proxy], the liveness check
    [self.proxy_thread.is_alive()] raises [AttributeError] out of
    [start]: nothing is queued by the search, [current_port] stays at that
    candidate with no thread, master or loop held, capture stays enabled,
    and the in-progress flag stays set. *)
Theorem start_raises_on_gone_engine (port : Z) (join : join_outcome)
    (env : Z -> attempt) (w : World) (earlier : list Z) (c : Z)
    (exc : option pystr) (later : list Z) :
  thread_alive w && port_eqb (current_port (svc w)) port = false ->
  _candidate_ports port = earlier ++ c :: later ->
  (forall x, In x earlier -> occupied_or_unreachable (env x)) ->
  env c = EngineGone exc ->
  let w' := start port join env w in
  start_raises port join env w = Some AttributeError
  /\ current_port (svc w') = Some c
  /\ proxy_thread (svc w') = None
  /\ proxy_master (svc w') = None
  /\ proxy_loop (svc w') = None
  /\ thread_alive w' = false
  /\ state (svc w') = {| capture_enabled := true; paused := false |}
  /\ _start_in_progress (svc w') = true
  /\ event_queue (svc w') = event_queue (svc (before_search join w))
  /\ _last_start_error (svc w')
     = match exc with
       | Some message => message
       | None => last_exception env earlier []
       end.
Proof.
  intros Hreach Hsplit Hdown Hgone w'. subst w'.
  unfold start, start_raises.
  destruct (start_reaches_search port join env w Hreach) as [-> Hdead].
  unfold start_search.
  set (w1 := with_svc _ (before_search join w)).
  assert (Hdead1 : thread_alive w1 = false) by exact Hdead.
  rewrite Hsplit.
  destruct (search_gone env c exc later earlier w1 Hdown Hgone eq_refl Hdead1)
    as (Hs & Hp & Ht & Hm & Hl & Hst & Hin & Hq & He).
  destruct (search env (earlier ++ c :: later) w1) as [w2 ended].
  cbn [fst snd] in *. subst ended. cbn [fst snd].
  repeat split; try assumption.
  apply thread_alive_no_thread. exact Ht.
Qed.

(** Port 8080 reachable right away while the engine thread has already
    raised: [start(8080)] raises with an empty queue. *)
Lemma start_raises_on_gone_engine_witness :
  let env := fun _ : Z => EngineGone (Some (lit "bind failed")) in
  let w' := start 8080 TimedOut env ProxyService_init in
  start_raises 8080 TimedOut env ProxyService_init = Some AttributeError
  /\ current_port (svc w') = Some 8080
  /\ _start_in_progress (svc w') = true
  /\ event_queue (svc w') = []
  /\ _last_start_error (svc w') = lit "bind failed".
Proof.
  intros env w'.
  destruct (start_raises_on_gone_engine 8080 TimedOut env ProxyService_init
              [] 8080 (Some (lit "bind failed")) (range 8081 8101)
              eq_refl eq_refl ltac:(intros x []) eq_refl)
    as (Hexn & Hport & _ & _ & _ & _ & _ & Hin & Hq & Herr).
  split; [exact Hexn|]. split; [exact Hport|]. split; [exact Hin|].
  split; [exact Hq | exact Herr].
Defined.

(** X14. [start(P)] on a service whose engine thread is alive on port [P]
    restarts nothing: the thread, the port and the set of live threads are
    as before, capture is enabled and the pause cleared, and one [running]
    status for [P] is queued.  If capture was enabled this is what
    [resume] does. *)
Theorem start_on_current_port (port : Z) (join : join_outcome)
    (env : Z -> attempt) (w : World) :
  thread_alive w = true ->
  current_port (svc w) = Some port ->
  let w' := start port join env w in
  live w' = live w
  /\ spawned w' = spawned w
  /\ proxy_thread (svc w') = proxy_thread (svc w)
  /\ current_port (svc w') = Some port
  /\ state (svc w') = {| capture_enabled := true; paused := false |}
  /\ event_queue (svc w')
     = event_queue (svc w)
       ++ [StatusEvent (lit "running") (_running_message (Some port)) (Some port)]
  /\ (capture_enabled (state (svc w)) = true -> w' = resume w).
Proof.
  intros Halive Hport w'. subst w'. unfold start, start_call.
  rewrite Halive, Hport. cbn [port_eqb]. rewrite Z.eqb_refl.
  cbn [fst with_svc svc live spawned _status put set_state proxy_thread current_port
       state event_queue].
  repeat split; try reflexivity; try exact Hport.
  intro Hcap. unfold resume. rewrite Halive. cbn [negb].
  unfold with_svc. rewrite Hport, Hcap. reflexivity.
Qed.

(** A paused service on 8080 asked to start on 8080 again. *)
Lemma start_on_current_port_witness :
  let paused_up := pause (start 8080 TimedOut (fun _ => EngineUp) ProxyService_init) in
  let w' := start 8080 TimedOut (fun _ => PortBusy) paused_up in
  live w' = [0%nat]
  /\ state (svc w') = {| capture_enabled := true; paused := false |}
  /\ w' = resume paused_up.
Proof.
  intros paused_up w'.
  destruct (start_on_current_port 8080 TimedOut (fun _ => PortBusy) paused_up
              eq_refl eq_refl) as (Hlive & _ & _ & _ & Hst & _ & Hres).
  split; [transitivity (live paused_up); [exact Hlive | reflexivity]|].
  split; [exact Hst | apply Hres; reflexivity].
Defined.

(** ** [stop] *)

Lemma stop_fields (join : join_outcome) (w : World) :
  current_port (svc (stop join w)) = None
  /\ proxy_thread (svc (stop join w)) = None
  /\ proxy_master (svc (stop join w)) = None
  /\ proxy_loop (svc (stop join w)) = None
  /\ state (svc (stop join w)) = {| capture_enabled := false; paused := false |}
  /\ event_queue (svc (stop join w))
     = event_queue (svc w) ++ shutdown_events join w
       ++ [StatusEvent (lit "stopped") (lit "Stopped") (current_port (svc w))].
Proof.
  unfold stop, shutdown_events, _shutdown_proxy_locked.
  set (w1 := with_svc (set_state _) w).
  assert (Ha : thread_alive w1 = thread_alive w) by reflexivity.
  replace (proxy_thread (svc w1)) with (proxy_thread (svc w)) by reflexivity.
  rewrite Ha.
  destruct (proxy_thread (svc w)) as [t|] eqn:Et.
  - destruct join as [[message|]|].
    + destruct (thread_alive w); cbn [andb].
      * unfold run_proxy_exit. cbn [svc w1 with_svc set_last_start_error
                                     _start_in_progress].
        destruct (_start_in_progress (svc w)) eqn:Ein; cbn;
          rewrite ?Ein; cbn; rewrite <- ?app_assoc; repeat split; reflexivity.
      * cbn. repeat split; reflexivity.
    + destruct (thread_alive w); cbn [andb];
        [destruct (negb (_start_in_progress (svc w)))|];
        cbn; repeat split; reflexivity.
    + destruct (thread_alive w); cbn [andb];
        [destruct (negb (_start_in_progress (svc w)))|];
        cbn; repeat split; reflexivity.
  - assert (Hdead : thread_alive w = false)
      by (apply thread_alive_no_thread; exact Et).
    rewrite Hdead. cbn. repeat split; reflexivity.
Qed.

(** X15. After [stop] the service holds no thread, master or loop,
    [current_port] is [None], both capture flags are clear and the derived
    status is [stopped].  The call queues one [stopped] status carrying
    the port held before the call; it comes after the error and [stopped]
    events of the engine thread itself when that thread raised while being
    shut down. *)
Theorem stop_effects (join : join_outcome) (w : World) :
  let w' := stop join w in
  current_port (svc w') = None
  /\ proxy_thread (svc w') = None
  /\ proxy_master (svc w') = None
  /\ proxy_loop (svc w') = None
  /\ state (svc w') = {| capture_enabled := false; paused := false |}
  /\ thread_alive w' = false
  /\ current_status_payload w' = StatusEvent (lit "stopped") (lit "Ready") None
  /\ event_queue (svc w')
     = event_queue (svc w) ++ shutdown_events join w
       ++ [StatusEvent (lit "stopped") (lit "Stopped") (current_port (svc w))].
Proof.
  intro w'.
  destruct (stop_fields join w) as (Hport & Hth & Hm & Hl & Hst & Hq).
  fold w' in Hport, Hth, Hm, Hl, Hst, Hq.
  assert (Hdead : thread_alive w' = false)
    by (apply thread_alive_no_thread; exact Hth).
  split; [exact Hport|]. split; [exact Hth|]. split; [exact Hm|].
  split; [exact Hl|]. split; [exact Hst|]. split; [exact Hdead|].
  split; [|exact Hq].
  unfold current_status_payload. rewrite Hdead, Hport. reflexivity.
Qed.

(** ** [pause] and [resume] *)

(** X16. With no engine thread alive [resume] changes nothing.  With the
    engine thread alive, [pause] followed by [resume] on a service that
    was not paused restores the capture flags and touches nothing but the
    queue, which gains a [paused] and then a [running] status for the
    current port. *)
Theorem pause_resume_round_trip (w : World) :
  (thread_alive w = false -> resume w = w /\ resume (pause w) = w)
  /\ (thread_alive w = true ->
      paused (state (svc w)) = false ->
      let w' := resume (pause w) in
      state (svc w') = state (svc w)
      /\ live w' = live w
      /\ proxy_thread (svc w') = proxy_thread (svc w)
      /\ current_port (svc w') = current_port (svc w)
      /\ _last_start_error (svc w') = _last_start_error (svc w)
      /\ event_queue (svc w')
         = event_queue (svc w)
           ++ [StatusEvent (lit "paused") (lit "Paused") (current_port (svc w));
               StatusEvent (lit "running")
                 (_running_message (current_port (svc w)))
                 (current_port (svc w))]).
Proof.
  split.
  - intro Hdead. unfold resume, pause. rewrite Hdead. cbn [negb].
    rewrite Hdead. split; reflexivity.
  - intros Halive Hnp w'. subst w'.
    assert (Hp : thread_alive (pause w) = true)
      by (unfold pause; rewrite Halive; exact Halive).
    unfold resume. rewrite Hp. cbn [negb].
    unfold pause. rewrite Halive. cbn [negb].
    cbn [with_svc svc live _status put set_state state proxy_thread current_port
         _last_start_error event_queue capture_enabled].
    rewrite <- app_assoc. cbn [app].
    repeat split; try reflexivity.
    destruct (state (svc w)) as [ce p]. cbn in Hnp |- *. rewrite Hnp. reflexivity.
Qed.

(** A running service on 8080, paused and resumed. *)
Lemma pause_resume_round_trip_witness :
  let up := start 8080 TimedOut (fun _ => EngineUp) ProxyService_init in
  state (svc (resume (pause up))) = {| capture_enabled := true; paused := false |}
  /\ List.length (event_queue (svc (resume (pause up)))) = 3%nat.
Proof.
  intro up.
  destruct (pause_resume_round_trip up) as [_ H].
  destruct (H eq_refl eq_refl) as (Hst & _ & _ & _ & _ & Hq).
  split; [rewrite Hst; reflexivity | rewrite Hq; reflexivity].
Defined.

(** ** The derived status *)

(** X17. [current_status_payload] always carries the current port and one
    of three statuses: [paused] exactly when the engine thread is alive
    and the paused flag is set; [running] exactly when the thread is alive
    and capture is effective (enabled and not paused); [stopped] in every
    other case, in particular whenever no thread is alive. *)
Theorem status_reflects_capture (w : World) :
  let e := current_status_payload w in
  (exists message, e = StatusEvent (event_status e) message (current_port (svc w)))
  /\ (event_status e = lit "paused"
      <-> thread_alive w = true /\ paused (state (svc w)) = true)
  /\ (event_status e = lit "running"
      <-> thread_alive w = true /\ should_capture (state (svc w)) = true)
  /\ (event_status e = lit "stopped"
      <-> thread_alive w = false
          \/ (capture_enabled (state (svc w)) = false
              /\ paused (state (svc w)) = false)).
Proof.
  intro e. subst e. unfold current_status_payload, should_capture.
  destruct (thread_alive w), (paused (state (svc w))),
           (capture_enabled (state (svc w)));
    cbn [andb negb event_status];
    (split; [eexists; reflexivity|]);
    repeat split; intros;
    repeat match goal with
           | H : _ /\ _ |- _ => destruct H
           | H : _ \/ _ |- _ => destruct H
           end;
    try discriminate; try reflexivity;
    try (left; reflexivity); try (right; split; reflexivity);
    try (exfalso; match goal with
                  | H : lit _ = lit _ |- _ => cbv in H; discriminate
                  end).
Qed.

(** ** The event queue *)

Lemma run_proxy_exit_queue (t : nat) (exc : option pystr) (w : World) :
  exists suffix,
    event_queue (svc (run_proxy_exit t exc w)) = event_queue (svc w) ++ suffix.
Proof.
  unfold run_proxy_exit. destruct exc as [message|].
  - cbn [svc set_last_start_error _start_in_progress].
    destruct (_start_in_progress (svc w)); cbn.
    + exists []. rewrite app_nil_r. reflexivity.
    + eexists. rewrite <- app_assoc. reflexivity.
  - exists []. cbn. rewrite app_nil_r. reflexivity.
Qed.

Lemma _shutdown_proxy_locked_queue (j : join_outcome) (w : World) :
  exists suffix,
    event_queue (svc (_shutdown_proxy_locked j w)) = event_queue (svc w) ++ suffix.
Proof.
  unfold _shutdown_proxy_locked.
  destruct (proxy_thread (svc w)) as [t|];
    [destruct j as [exc|]; [destruct (thread_alive w)|]|];
    try (exists []; cbn; rewrite app_nil_r; reflexivity).
  destruct (run_proxy_exit_queue t exc w) as [suffix E].
  exists suffix. cbn [with_svc svc set_refs event_queue]. exact E.
Qed.

Lemma search_queue (env : Z -> attempt) (candidates : list Z) :
  forall w, exists suffix,
    event_queue (svc (fst (search env candidates w))) = event_queue (svc w) ++ suffix.
Proof.
  induction candidates as [|c rest IH]; intro w; cbn [search].
  - exists []. cbn. rewrite app_nil_r. reflexivity.
  - destruct (env c) as [| |exc|j].
    + apply IH.
    + eexists. cbn. reflexivity.
    + cbn [fst]. apply (run_proxy_exit_queue (spawned w) exc (launch c w)).
    + destruct (IH (_shutdown_proxy_locked j (launch c w))) as [s2 E2].
      destruct (_shutdown_proxy_locked_queue j (launch c w)) as [s1 E1].
      exists (s1 ++ s2). rewrite E2, E1, app_assoc. reflexivity.
Qed.

Lemma search_started_queue (env : Z -> attempt) (candidates : list Z) :
  forall v, snd (search env candidates v) = Started ->
  exists suffix,
    event_queue (svc (fst (search env candidates v))) = event_queue (svc v) ++ suffix
    /\ suffix <> [].
Proof.
  induction candidates as [|c rest IH]; intros v Hv; cbn [search] in *.
  - discriminate.
  - destruct (env c) as [| |exc|j].
    + apply IH. exact Hv.
    + eexists. split; [cbn; reflexivity | discriminate].
    + discriminate.
    + destruct (IH _ Hv) as (s2 & E2 & Hne).
      destruct (_shutdown_proxy_locked_queue j (launch c v)) as [s1 E1].
      exists (s1 ++ s2). split.
      * rewrite E2, E1, app_assoc. reflexivity.
      * intro E. apply app_eq_nil in E. destruct E as [_ E]. exact (Hne E).
Qed.

Lemma start_search_queue (port : Z) (env : Z -> attempt) (w : World) :
  exists suffix,
    event_queue (svc (fst (start_search port env w))) = event_queue (svc w) ++ suffix
    /\ (snd (start_search port env w) = None -> suffix <> []).
Proof.
  destruct (start_search_fields port env w) as (_ & _ & _ & _ & _ & Hq & Hexn).
  set (w1 := with_svc _ w) in *.
  rewrite Hq, Hexn. clear Hq Hexn.
  destruct (snd (search env (_candidate_ports port) w1)) as [| |e] eqn:Es.
  - destruct (search_started_queue env (_candidate_ports port) w1 Es)
      as (suffix & E & Hne).
    exists suffix. rewrite app_nil_r. split; [exact E | intros _; exact Hne].
  - destruct (search_queue env (_candidate_ports port) w1) as [s1 E1].
    eexists. split.
    + rewrite E1, <- app_assoc. reflexivity.
    + intros _ E. apply app_eq_nil in E. destruct E as [_ E]. discriminate.
  - destruct (search_queue env (_candidate_ports port) w1) as [s1 E1].
    exists s1. rewrite app_nil_r. split; [exact E1 | discriminate].
Qed.

Lemma step_queue (w : World) (o : op) :
  exists suffix,
    event_queue (svc (step w o)) = event_queue (svc w) ++ suffix
    /\ (replies o w = true -> suffix <> []).
Proof.
  destruct o as [port join env|join| | |t exc]; cbn [step replies].
  - unfold start_raises, start, start_call. destruct (thread_alive w).
    + destruct (port_eqb (current_port (svc w)) port).
      * eexists. split; [cbn; reflexivity | intros _; discriminate].
      * destruct (_shutdown_proxy_locked_queue join w) as [s1 E1].
        destruct (start_search_queue port env (_shutdown_proxy_locked join w))
          as (s2 & E2 & Hne).
        exists (s1 ++ s2). split.
        -- rewrite E2, E1, app_assoc. reflexivity.
        -- intros Hr E. apply app_eq_nil in E. destruct E as [_ E].
           destruct (snd (start_search port env (_shutdown_proxy_locked join w)));
             [discriminate|].
           exact (Hne eq_refl E).
    + destruct (start_search_queue port env w) as (s & E & Hne).
      exists s. split; [exact E|].
      intro Hr. destruct (snd (start_search port env w)); [discriminate|].
      exact (Hne eq_refl).
  - eexists. split.
    + rewrite (proj2 (proj2 (proj2 (proj2 (proj2 (stop_fields join w)))))).
      reflexivity.
    + intros _ E. apply app_eq_nil in E. destruct E as [_ E]. discriminate.
  - unfold pause. destruct (thread_alive w); cbn [negb].
    + eexists. split; [cbn; reflexivity | discriminate].
    + exists []. rewrite app_nil_r. split; [reflexivity | discriminate].
  - unfold resume. destruct (thread_alive w); cbn [negb].
    + eexists. split; [cbn; reflexivity | discriminate].
    + exists []. rewrite app_nil_r. split; [reflexivity | discriminate].
  - destruct (existsb (Nat.eqb t) (live w)).
    + destruct (run_proxy_exit_queue t exc w) as [s E].
      exists s. split; [exact E | discriminate].
    + exists []. rewrite app_nil_r. split; [reflexivity | discriminate].
Qed.

(** X18. No operation removes or reorders queued events: every run only
    appends to the queue, also through a [start] that raises.  Each [stop]
    and each [start] that returns appends at least one event, so the
    events appended by a run are at least as many as those calls. *)
Theorem queue_only_grows (ops : list op) :
  forall w, exists suffix,
    event_queue (svc (run ops w)) = event_queue (svc w) ++ suffix
    /\ (replied ops w <= List.length suffix)%nat.
Proof.
  unfold run. induction ops as [|o ops IH]; intro w; cbn [fold_left replied].
  - exists []. rewrite app_nil_r. split; [reflexivity | cbn; lia].
  - destruct (step_queue w o) as (s1 & E1 & Hne).
    destruct (IH (step w o)) as (s2 & E2 & Hlen).
    exists (s1 ++ s2). split.
    + rewrite E2, E1, app_assoc. reflexivity.
    + rewrite length_app. destruct (replies o w); [|lia].
      destruct s1 as [|e s1]; [exfalso; apply Hne; reflexivity|].
      cbn [List.length]. lia.
Qed.

(** ** The bound port *)

Lemma search_ended_port (env : Z -> attempt) (candidates : list Z) :
  forall v, snd (search env candidates v) <> Exhausted ->
  exists c, In c candidates
            /\ current_port (svc (fst (search env candidates v))) = Some c.
Proof.
  induction candidates as [|c rest IH]; intros v Hv; cbn [search] in *.
  - exfalso. apply Hv. reflexivity.
  - destruct (env c) as [| |exc|j].
    + destruct (IH _ Hv) as (c' & Hin & E). exists c'. split; [right|]; assumption.
    + exists c. split; [left; reflexivity | reflexivity].
    + exists c. split; [left; reflexivity|]. cbn [fst].
      rewrite (proj1 (proj2 (proj2
                 (run_proxy_exit_refs (spawned v) exc (launch c v))))).
      reflexivity.
    + destruct (IH _ Hv) as (c' & Hin & E). exists c'. split; [right|]; assumption.
Qed.

Lemma start_search_port (port : Z) (env : Z -> attempt) (w : World) :
  forall c, current_port (svc (fst (start_search port env w))) = Some c ->
            port <= c <= port + 20.
Proof.
  intros c Hc.
  destruct (start_search_fields port env w) as (_ & _ & _ & _ & Hport & _).
  set (w1 := with_svc _ w) in *.
  rewrite Hport in Hc.
  assert (Hended : snd (search env (_candidate_ports port) w1) <> Exhausted).
  { intro E. rewrite E in Hc. discriminate. }
  destruct (search_ended_port env (_candidate_ports port) w1 Hended)
    as (c' & Hin & E).
  assert (Hsame : current_port (svc (fst (search env (_candidate_ports port) w1)))
                  = Some c).
  { destruct (snd (search env (_candidate_ports port) w1));
      [exact Hc | congruence | exact Hc]. }
  rewrite E in Hsame. injection Hsame as <-.
  apply _candidate_ports_In. exact Hin.
Qed.

Lemma bound_near_more (ports more : list Z) (w : World) :
  bound_near ports w -> bound_near (ports ++ more) w.
Proof.
  intros H c Hc. destruct (H c Hc) as (port & Hin & Hr).
  exists port. split; [apply in_or_app; left; exact Hin | exact Hr].
Qed.

Lemma step_bound_near (ports : list Z) (w : World) (o : op) :
  bound_near ports w -> bound_near (ports ++ requested_ports [o]) (step w o).
Proof.
  intro Hnear.
  destruct o as [port join env|join| | |t exc]; cbn [step requested_ports flat_map app].
  - unfold start, start_call.
    assert (Hsearch : forall v, bound_near (ports ++ [port])
                                  (fst (start_search port env v))).
    { intros v c Hc. exists port. split.
      - apply in_or_app. right. left. reflexivity.
      - apply (start_search_port port env v). exact Hc. }
    destruct (thread_alive w); [|apply Hsearch].
    destruct (port_eqb (current_port (svc w)) port); [|apply Hsearch].
    apply bound_near_more. exact Hnear.
  - intros c Hc. rewrite (proj1 (stop_fields join w)) in Hc. discriminate.
  - apply bound_near_more. unfold pause. destruct (thread_alive w); exact Hnear.
  - apply bound_near_more. unfold resume. destruct (thread_alive w); exact Hnear.
  - apply bound_near_more.
    destruct (existsb (Nat.eqb t) (live w)); [|exact Hnear].
    intros c Hc.
    rewrite (proj1 (proj2 (proj2 (run_proxy_exit_refs t exc w)))) in Hc.
    apply Hnear. exact Hc.
Qed.

(** X19. The port search never strays: after any run from a fresh
    service, a non-null [current_port] lies between [P] and [P + 20] for
    some [P] that a [start] of the run asked for. *)
Theorem bound_port_near_requested (ops : list op) :
  forall c, current_port (svc (run ops ProxyService_init)) = Some c ->
  exists port, In port (requested_ports ops) /\ port <= c <= port + 20.
Proof.
  assert (Hgen : forall ops ports w, bound_near ports w ->
            bound_near (ports ++ requested_ports ops) (run ops w)).
  { unfold run. clear ops. induction ops as [|o ops IH]; intros ports w Hnear.
    - cbn. rewrite app_nil_r. exact Hnear.
    - cbn [fold_left].
      replace (requested_ports (o :: ops))
        with (requested_ports [o] ++ requested_ports ops)
        by (unfold requested_ports; cbn [flat_map]; rewrite app_nil_r; reflexivity).
      rewrite app_assoc. apply IH. apply step_bound_near. exact Hnear. }
  apply (Hgen ops [] ProxyService_init).
  intros c Hc. discriminate.
Qed.

(** Port 8080 occupied at first, then a restart near 9000 that lands on
    9003. *)
Lemma bound_port_near_requested_witness :
  let ops := [ OpStart 8080 (Joined None)
                 (fun c => if c =? 8080 then PortBusy else EngineUp);
               OpStart 9000 (Joined None)
                 (fun c => if c <? 9003 then EngineDown (Joined None) else EngineUp) ] in
  current_port (svc (run ops ProxyService_init)) = Some 9003
  /\ exists port, In port [8080; 9000] /\ port <= 9003 <= port + 20.
Proof.
  intro ops. split; [reflexivity|].
  apply (bound_port_near_requested ops 9003). reflexivity.
Defined.

(** ** The engine thread's own exit *)

(** X20. When a live engine thread leaves [run_proxy], the service's
    thread, master and loop references are cleared while the capture
    flags and [current_port] stay as they were; the derived status becomes
    [stopped], and [pause] and [resume] are ignored from then on.  An
    exception is recorded in [_last_start_error]; it is queued, as an
    error followed by a [stopped] status with the current port, only when
    no start is in progress. *)
Theorem engine_exit_effects (t : nat) (exc : option pystr) (w : World) :
  In t (live w) ->
  let w' := step w (OpEngineExit t exc) in
  thread_alive w' = false
  /\ ~ In t (live w')
  /\ proxy_thread (svc w') = None
  /\ proxy_master (svc w') = None
  /\ proxy_loop (svc w') = None
  /\ state (svc w') = state (svc w)
  /\ current_port (svc w') = current_port (svc w)
  /\ event_status (current_status_payload w') = lit "stopped"
  /\ pause w' = w'
  /\ resume w' = w'
  /\ _last_start_error (svc w')
     = match exc with Some message => message | None => _last_start_error (svc w) end
  /\ event_queue (svc w')
     = event_queue (svc w)
       ++ match exc with
          | Some message =>
              if _start_in_progress (svc w) then []
              else [ErrorEvent message;
                    StatusEvent (lit "stopped") (lit "Stopped")
                      (current_port (svc w))]
          | None => []
          end.
Proof.
  intros Hin w'. subst w'. cbn [step].
  rewrite (proj2 (existsb_eqb_In t (live w)) Hin).
  assert (Hfields :
    proxy_thread (svc (run_proxy_exit t exc w)) = None
    /\ proxy_master (svc (run_proxy_exit t exc w)) = None
    /\ proxy_loop (svc (run_proxy_exit t exc w)) = None
    /\ state (svc (run_proxy_exit t exc w)) = state (svc w)
    /\ current_port (svc (run_proxy_exit t exc w)) = current_port (svc w)
    /\ _last_start_error (svc (run_proxy_exit t exc w))
       = match exc with Some message => message | None => _last_start_error (svc w) end
    /\ event_queue (svc (run_proxy_exit t exc w))
       = event_queue (svc w)
         ++ match exc with
            | Some message =>
                if _start_in_progress (svc w) then []
                else [ErrorEvent message;
                      StatusEvent (lit "stopped") (lit "Stopped")
                        (current_port (svc w))]
            | None => []
            end).
  { unfold run_proxy_exit. destruct exc as [message|].
    - cbn [svc set_last_start_error _start_in_progress].
      destruct (_start_in_progress (svc w)) eqn:Ein; cbn;
        rewrite ?app_nil_r, <- ?app_assoc; repeat split; reflexivity.
    - cbn. rewrite app_nil_r. repeat split; reflexivity. }
  destruct Hfields as (Hth & Hm & Hl & Hst & Hport & Herr & Hq).
  assert (Hdead : thread_alive (run_proxy_exit t exc w) = false)
    by (apply thread_alive_no_thread; exact Hth).
  split; [exact Hdead|]. split.
  { rewrite (proj2 (proj2 (proj2 (run_proxy_exit_refs t exc w)))).
    rewrite filter_In. intros [_ H]. rewrite Nat.eqb_refl in H. discriminate. }
  split; [exact Hth|]. split; [exact Hm|]. split; [exact Hl|].
  split; [exact Hst|]. split; [exact Hport|]. split.
  { unfold current_status_payload. rewrite Hdead. reflexivity. }
  split; [unfold pause; rewrite Hdead; reflexivity|].
  split; [unfold resume; rewrite Hdead; reflexivity|].
  split; [exact Herr | exact Hq].
Qed.

(** A running engine on 8080 that raises: the port stays, the error and a
    [stopped] status are queued, and a later [pause] does nothing. *)
Lemma engine_exit_effects_witness :
  let up := start 8080 TimedOut (fun _ => EngineUp) ProxyService_init in
  let w' := step up (OpEngineExit 0 (Some (lit "boom"))) in
  current_port (svc w') = Some 8080
  /\ pause w' = w'
  /\ List.length (event_queue (svc w')) = 3%nat.
Proof.
  intros up w'.
  destruct (engine_exit_effects 0 (Some (lit "boom")) up ltac:(left; reflexivity))
    as (_ & _ & _ & _ & _ & _ & Hport & _ & Hpause & _ & _ & Hq).
  split; [exact Hport|]. split; [exact Hpause|].
  transitivity (List.length (event_queue (svc (step up (OpEngineExit 0 (Some (lit "boom"))))))).
  - reflexivity.
  - rewrite Hq. reflexivity.
Defined.
